(** * bro-pdns: the ClickHouse store (store_clickhouse.go)

    A shallow embedding of [CHStore] and of the part of the ClickHouse
    server it talks to.  Go strings are [string]s (byte sequences), SQL
    integers are [Z] with the column width written out, tables are
    lists of rows in physical order, and every method of the store is a
    computation in a small monad that threads the outside world (the
    database, the clock, the network) and can panic. *)

From Stdlib Require Import ZArith List String Ascii Bool Lia.
From Stdlib Require Import Sorted Permutation OrderedTypeEx.
Import ListNotations.

Local Open Scope string_scope.
Local Open Scope Z_scope.

(** ** Go values *)

(** Go's [error] values as this file meets them. *)
Inductive error : Type :=
| ErrNoRows                                (* sql.ErrNoRows *)
| Errorf (msg : string)                    (* fmt.Errorf(msg) *)
| Foreign (msg : string)                   (* an error made by a library or the server *)
| Wrapped (cause : error) (msg : string).  (* errors.Wrap(cause, msg) *)

Fixpoint Error (e : error) : string :=
  match e with
  | ErrNoRows => "sql: no rows in result set"
  | Errorf msg => msg
  | Foreign msg => msg
  | Wrapped cause msg => msg ++ ": " ++ Error cause
  end.

(** How a Go call ends: it returns, or it panics. *)
Inductive outcome (A : Type) : Type :=
| Return (a : A)
| Panic (msg : string).
Arguments Return {A} a.
Arguments Panic {A} msg.

Definition nil_dereference : string :=
  "runtime error: invalid memory address or nil pointer dereference".

(** ** Strings *)

(** Modelled from the spec: [Reverse] is declared in another file of the
    package; section 4.2 says it reverses the character sequence of a
    string. *)
Definition Reverse (s : string) : string :=
  string_of_list_ascii (rev (list_ascii_of_string s)).

(** SQL [LIKE] on byte strings: [%] stands for any run of bytes, [_]
    for one byte, a backslash takes the next pattern byte literally. *)
Fixpoint like_chars (p s : list ascii) {struct p} : bool :=
  match p with
  | [] => match s with [] => true | _ :: _ => false end
  | c :: p' =>
      if Ascii.eqb c "%" then
        (fix any (s : list ascii) : bool :=
           like_chars p' s ||
           match s with [] => false | _ :: s' => any s' end) s
      else if Ascii.eqb c "_" then
        match s with [] => false | _ :: s' => like_chars p' s' end
      else if Ascii.eqb c "\" then
        match p' with
        | [] => match s with
                | [d] => Ascii.eqb c d
                | _ => false
                end
        | e :: p'' =>
            match s with
            | [] => false
            | d :: s' => Ascii.eqb e d && like_chars p'' s'
            end
        end
      else
        match s with
        | [] => false
        | d :: s' => Ascii.eqb c d && like_chars p' s'
        end
  end.

Definition like (s pattern : string) : bool :=
  like_chars (list_ascii_of_string pattern) (list_ascii_of_string s).

(** ** Rows *)

(** The [which] column, [Enum8('Q'=0, 'A'=1)]. *)
Inductive which : Type := Q | A.

Definition which_eqb (a b : which) : bool :=
  match a, b with
  | Q, Q | A, A => true
  | _, _ => false
  end.

Definition UInt64_modulus : Z := 2 ^ 64.

(** A row of [tuples_temp]: raw, not aggregated. *)
Record tuples_temp_row : Type := mk_tuples_temp_row {
  tt_query : string;
  tt_type : string;
  tt_answer : string;
  tt_ttl : Z;      (* UInt16 *)
  tt_first : Z;    (* DateTime *)
  tt_last : Z;     (* DateTime *)
  tt_count : Z     (* UInt64 *)
}.

(** A row of [individual_temp]. *)
Record individual_temp_row : Type := mk_individual_temp_row {
  it_which : which;
  it_value : string;
  it_first : Z;
  it_last : Z;
  it_count : Z
}.

(** A row of [tuples]: the key and one state per aggregate function.
    The state of [anyLast], [min] and [max] over a non-empty group is
    the value so far, that of [sum] the running total in [UInt64]. *)
Record tuples_row : Type := mk_tuples_row {
  tu_query : string;
  tu_type : string;
  tu_answer : string;
  tu_ttl : Z;      (* AggregateFunction(anyLast, UInt16) *)
  tu_first : Z;    (* AggregateFunction(min, DateTime) *)
  tu_last : Z;     (* AggregateFunction(max, DateTime) *)
  tu_count : Z     (* AggregateFunction(sum, UInt64) *)
}.

(** A row of [individual]. *)
Record individual_row : Type := mk_individual_row {
  in_which : which;
  in_value : string;
  in_first : Z;
  in_last : Z;
  in_count : Z
}.

(** A row of the ledger [filenames]; the two [Float64] durations are
    kept as whole nanoseconds. *)
Record filenames_row : Type := mk_filenames_row {
  fn_filename : string;
  fn_aggregation_time : Z;
  fn_total_records : Z;
  fn_skipped_records : Z;
  fn_tuples : Z;
  fn_individual : Z;
  fn_store_time : Z;
  fn_inserted : Z;
  fn_updated : Z
}.

(** The two staging tables. *)
Inductive staging : Type := tuples_temp | individual_temp.

(** The database after [Init]: the three permanent tables exist; a
    staging table exists when it is [Some]. *)
Record database : Type := mk_database {
  tuples : list tuples_row;
  individual : list individual_row;
  filenames : list filenames_row;
  staged_tuples : option (list tuples_temp_row);
  staged_individual : option (list individual_temp_row)
}.

(** ** SQL building blocks *)

Definition key3 : Type := string * string * string.

Definition key3_eqb (a b : key3) : bool :=
  let '(q1, t1, a1) := a in
  let '(q2, t2, a2) := b in
  String.eqb q1 q2 && String.eqb t1 t2 && String.eqb a1 a2.

Definition key2 : Type := which * string.

Definition key2_eqb (a b : key2) : bool :=
  which_eqb (fst a) (fst b) && String.eqb (snd a) (snd b).

Section GroupBy.
Context {R K : Type}.
Variable key : R -> K.
Variable keqb : K -> K -> bool.

(** The distinct values of a list, in order of first occurrence. *)
Fixpoint distinct (ks : list K) : list K :=
  match ks with
  | [] => []
  | k :: ks' => k :: filter (fun k' => negb (keqb k k')) (distinct ks')
  end.

(** [GROUP BY key]: one group per distinct key, each holding the rows
    of that key in table order. *)
Definition group_by (rows : list R) : list (K * list R) :=
  map (fun k => (k, filter (fun r => keqb (key r) k) rows))
      (distinct (map key rows)).
End GroupBy.

(** The aggregate functions over the values of one group. *)
Definition agg_anyLast (xs : list Z) : Z := last xs 0.

Definition agg_min (xs : list Z) : Z :=
  match xs with
  | [] => 0
  | x :: xs' => fold_left Z.min xs' x
  end.

Definition agg_max (xs : list Z) : Z :=
  match xs with
  | [] => 0
  | x :: xs' => fold_left Z.max xs' x
  end.

Definition agg_sum (xs : list Z) : Z :=
  fold_left (fun acc x => (acc + x) mod UInt64_modulus) xs 0.

Section OrderBy.
Context {R : Type}.
Variable leb : R -> R -> bool.

Fixpoint insert_sorted (r : R) (rs : list R) : list R :=
  match rs with
  | [] => [r]
  | r' :: rs' => if leb r r' then r :: rs else r' :: insert_sorted r rs'
  end.

(** [ORDER BY]: ascending in [leb]. *)
Definition order_by (rs : list R) : list R :=
  fold_right insert_sorted [] rs.
End OrderBy.

(** Ascending order on one string column and on a pair of them. *)
Definition string_leb (a b : string) : bool := String.leb a b.

Definition pair_leb (a b : string * string) : bool :=
  match String.compare (fst a) (fst b) with
  | Lt => true
  | Eq => String.leb (snd a) (snd b)
  | Gt => false
  end.

(** ** The outside world *)

(** What [CHStore.Exec] sends.  The SQL text of each is [sql_text]. *)
Inductive statement : Type :=
| DROP_TABLE (t : staging)
| CREATE_TABLE (t : staging)
| INSERT_INTO_tuples
| INSERT_INTO_individual.

Definition staging_name (t : staging) : string :=
  match t with
  | tuples_temp => "tuples_temp"
  | individual_temp => "individual_temp"
  end.

Definition tuples_temp_stmt : statement := CREATE_TABLE tuples_temp.
Definition individual_temp_stmt : statement := CREATE_TABLE individual_temp.

Definition sql_text (q : statement) : string :=
  match q with
  | DROP_TABLE t => "DROP TABLE " ++ staging_name t
  | CREATE_TABLE tuples_temp => "
CREATE TABLE tuples_temp (
    query String,
    type String,
    answer String,
    ttl UInt16,
    first DateTime,
    last DateTime,
    count UInt64
) ENGINE = Log"
  | CREATE_TABLE individual_temp => "
CREATE TABLE individual_temp (
    which Enum8('Q'=0, 'A'=1),
    value String,
    first DateTime,
    last DateTime,
    count UInt64
) ENGINE = Log"
  | INSERT_INTO_tuples =>
      "INSERT INTO tuples (query, type, answer, ttl, first, last, count) SELECT query, type, answer, anyLastState(ttl), minState(first), maxState(last), sumState(count) from tuples_temp group by query, type, answer"
  | INSERT_INTO_individual =>
      "INSERT INTO individual (which, value, first, last, count) SELECT which, value, minState(first), maxState(last), sumState(count) from individual_temp group by which, value"
  end.

(** What goes over the wire, in the order it is sent. *)
Inductive request : Type :=
| HttpExec (q : statement)     (* CHStore.Exec, through s.http *)
| HttpPost (table : string)    (* the POST of CHStore.SendJSON *)
| Native (sql : string).       (* a query through s.conn *)

(** What happens to one call for reasons outside the database: how long
    it takes, whether it fails before the server sees it (a refused
    connection, a timeout), whether the server turns it down whatever it
    asks (overload, a full disk), whether reading the body of the reply
    fails. *)
Record call_env : Type := mk_call_env {
  latency : Z;
  conn_err : option error;
  server_err : option string;
  body_err : option error
}.

Definition quiet : call_env := mk_call_env 0 None None None.

(** The error of a call that did not get an answer from the database. *)
Definition call_error (env : call_env) : option error :=
  match conn_err env with
  | Some e => Some e
  | None =>
      match server_err env with
      | Some msg => Some (Foreign msg)
      | None => None
      end
  end.

Record world : Type := mk_world {
  db : database;
  clock : Z;                (* time.Now(), in nanoseconds *)
  net : list call_env;      (* what happens to the calls to come *)
  wire : list request       (* the requests sent so far *)
}.

(** ** Computations *)

Definition M (A : Type) : Type := world -> world * outcome A.

Definition ret {A} (a : A) : M A := fun w => (w, Return a).

Definition panic {A} (msg : string) : M A := fun w => (w, Panic msg).

Definition bind {A B} (c : M A) (k : A -> M B) : M B :=
  fun w =>
    match c w with
    | (w', Return a) => k a w'
    | (w', Panic msg) => (w', Panic msg)
    end.

Notation "x <- c ;; k" := (bind c (fun x => k))
  (at level 61, c at next level, right associativity).
Notation "c ;;; k" := (bind c (fun _ => k))
  (at level 61, right associativity).

(** [defer d] before [body]: [d] runs when [body] returns or panics. *)
Definition with_defer {A} (d : M unit) (body : M A) : M A :=
  fun w =>
    match body w with
    | (w', r) =>
        match d w' with
        | (w'', Return _) => (w'', r)
        | (w'', Panic msg) => (w'', Panic msg)
        end
    end.

Definition get_db : M database := fun w => (w, Return (db w)).

Definition put_db (d : database) : M unit :=
  fun w => (mk_world d (clock w) (net w) (wire w), Return tt).

Definition time_Now : M Z := fun w => (w, Return (clock w)).

Definition time_Since (start : Z) : M Z :=
  now <- time_Now ;; ret (now - start).

(** One call over the network: the request is logged, the clock moves
    on, and the call meets the next [call_env] ([quiet] when none is
    left). *)
Definition net_call (r : request) : M call_env :=
  fun w =>
    let env := hd quiet (net w) in
    (mk_world (db w) (clock w + latency env) (tl (net w)) (wire w ++ [r]),
     Return env).

(** ** The server *)

Definition no_such_table (name : string) : error :=
  Foreign ("Code: 60, Table default." ++ name ++ " doesn't exist").

Definition table_exists (name : string) : error :=
  Foreign ("Code: 57, Table default." ++ name ++ " already exists").

Definition tuples_temp_key (r : tuples_temp_row) : key3 :=
  (tt_query r, tt_type r, tt_answer r).

Definition individual_temp_key (r : individual_temp_row) : key2 :=
  (it_which r, it_value r).

(** [SELECT query, type, answer, anyLastState(ttl), minState(first),
    maxState(last), sumState(count) from tuples_temp group by query,
    type, answer] *)
Definition tuples_state (g : key3 * list tuples_temp_row) : tuples_row :=
  let '(q, t, a) := fst g in
  mk_tuples_row q t a
    (agg_anyLast (map tt_ttl (snd g)))
    (agg_min (map tt_first (snd g)))
    (agg_max (map tt_last (snd g)))
    (agg_sum (map tt_count (snd g))).

Definition select_tuples_temp (rows : list tuples_temp_row) : list tuples_row :=
  map tuples_state (group_by tuples_temp_key key3_eqb rows).

(** [SELECT which, value, minState(first), maxState(last),
    sumState(count) from individual_temp group by which, value] *)
Definition individual_state (g : key2 * list individual_temp_row) : individual_row :=
  mk_individual_row (fst (fst g)) (snd (fst g))
    (agg_min (map it_first (snd g)))
    (agg_max (map it_last (snd g)))
    (agg_sum (map it_count (snd g))).

Definition select_individual_temp (rows : list individual_temp_row) : list individual_row :=
  map individual_state (group_by individual_temp_key key2_eqb rows).

(** The server runs one statement: the new database and the error it
    answers with, if any.  [INSERT] appends to the table; the engine's
    background merges are not modelled. *)
Definition run_statement (q : statement) (d : database) : database * option error :=
  match q with
  | DROP_TABLE tuples_temp =>
      match staged_tuples d with
      | Some _ => (mk_database (tuples d) (individual d) (filenames d) None (staged_individual d), None)
      | None => (d, Some (no_such_table "tuples_temp"))
      end
  | DROP_TABLE individual_temp =>
      match staged_individual d with
      | Some _ => (mk_database (tuples d) (individual d) (filenames d) (staged_tuples d) None, None)
      | None => (d, Some (no_such_table "individual_temp"))
      end
  | CREATE_TABLE tuples_temp =>
      match staged_tuples d with
      | Some _ => (d, Some (table_exists "tuples_temp"))
      | None => (mk_database (tuples d) (individual d) (filenames d) (Some []) (staged_individual d), None)
      end
  | CREATE_TABLE individual_temp =>
      match staged_individual d with
      | Some _ => (d, Some (table_exists "individual_temp"))
      | None => (mk_database (tuples d) (individual d) (filenames d) (staged_tuples d) (Some []), None)
      end
  | INSERT_INTO_tuples =>
      match staged_tuples d with
      | Some rows =>
          (mk_database (tuples d ++ select_tuples_temp rows) (individual d) (filenames d)
             (staged_tuples d) (staged_individual d), None)
      | None => (d, Some (no_such_table "tuples_temp"))
      end
  | INSERT_INTO_individual =>
      match staged_individual d with
      | Some rows =>
          (mk_database (tuples d) (individual d ++ select_individual_temp rows) (filenames d)
             (staged_tuples d) (staged_individual d), None)
      | None => (d, Some (no_such_table "individual_temp"))
      end
  end.

(** The rows an [io.Reader] of [JSONEachRow] lines carries. *)
Inductive rows : Type :=
| TupleRows (l : list tuples_temp_row)
| IndividualRows (l : list individual_temp_row).

Record response : Type := mk_response {
  StatusCode : Z;
  Body : string;              (* what ioutil.ReadAll gets *)
  BodyErr : option error      (* and the error it gets with it *)
}.

(** The server answers [INSERT INTO table FORMAT JSONEachRow]: the rows
    are appended to an existing staging table of their shape; anything
    else is refused with a status of 400 or more. *)
Definition run_insert (table : string) (r : rows) (d : database)
  : database * (Z * string) :=
  if String.eqb table "tuples_temp" then
    match staged_tuples d, r with
    | Some old, TupleRows l =>
        (mk_database (tuples d) (individual d) (filenames d)
           (Some (old ++ l)%list) (staged_individual d), (200, EmptyString))
    | Some _, IndividualRows _ =>
        (d, (400, "Code: 117, Unknown field found while parsing JSONEachRow format"))
    | None, _ => (d, (404, Error (no_such_table table)))
    end
  else if String.eqb table "individual_temp" then
    match staged_individual d, r with
    | Some old, IndividualRows l =>
        (mk_database (tuples d) (individual d) (filenames d)
           (staged_tuples d) (Some (old ++ l)%list), (200, EmptyString))
    | Some _, TupleRows _ =>
        (d, (400, "Code: 117, Unknown field found while parsing JSONEachRow format"))
    | None, _ => (d, (404, Error (no_such_table table)))
    end
  else (d, (404, Error (no_such_table table))).

(** ** Types declared elsewhere in the package *)

(** Modelled from the spec: [UpdateResult] is declared in another file;
    this file reads and writes its fields [Duration], [Inserted] and
    [Updated]. *)
Record UpdateResult : Type := mk_UpdateResult {
  ur_Duration : Z;
  ur_Inserted : Z;
  ur_Updated : Z
}.

Definition zero_UpdateResult : UpdateResult := mk_UpdateResult 0 0 0.

(** Modelled from the spec: [aggregationResult] is declared in another
    file; section 4.1 describes it as two mappings from key to count
    and timestamps.  Each mapping is kept as its entries in the order
    the codec visits them. *)
Record aggregationResult : Type := mk_aggregationResult {
  ar_Duration : Z;
  ar_TotalRecords : Z;
  ar_SkippedRecords : Z;
  ar_Tuples : list tuples_temp_row;
  ar_Individual : list individual_temp_row
}.

(** Modelled from the spec: [TupleJSONReader] and [IndividualJSONReader]
    are declared in another file; section 4.1 has them produce one
    serialized row per key, and sections 4.2 and 4.5 have query names
    stored reversed and answer values in natural order, which the
    flag asks for. *)
Definition TupleJSONReader (ar : aggregationResult) (reverse : bool) : rows :=
  TupleRows
    (map (fun t =>
            mk_tuples_temp_row
              (if reverse then Reverse (tt_query t) else tt_query t)
              (tt_type t) (tt_answer t) (tt_ttl t) (tt_first t) (tt_last t) (tt_count t))
       (ar_Tuples ar)).

Definition IndividualJSONReader (ar : aggregationResult) (reverse : bool) : rows :=
  IndividualRows
    (map (fun i =>
            mk_individual_temp_row (it_which i)
              (match it_which i with
               | Q => if reverse then Reverse (it_value i) else it_value i
               | A => it_value i
               end)
              (it_first i) (it_last i) (it_count i))
       (ar_Individual ar)).

(** Modelled from the spec: [tupleResult] and [individualResult] are
    declared in another file; section 3 lists their attributes. *)
Record tupleResult : Type := mk_tupleResult {
  tr_Query : string;
  tr_Type : string;
  tr_Answer : string;
  tr_TTL : Z;
  tr_First : Z;
  tr_Last : Z;
  tr_Count : Z
}.

Record individualResult : Type := mk_individualResult {
  ir_Which : which;
  ir_Value : string;
  ir_First : Z;
  ir_Last : Z;
  ir_Count : Z
}.

(** Modelled from the spec: [reverseQuery] and [reverseValue] are
    declared in another file; section 4.2 has results reversed back
    before they are returned, section 4.5 has only query names stored
    reversed. *)
Definition reverseQuery (tr : list tupleResult) : list tupleResult :=
  map (fun t =>
         mk_tupleResult (Reverse (tr_Query t)) (tr_Type t) (tr_Answer t)
           (tr_TTL t) (tr_First t) (tr_Last t) (tr_Count t))
      tr.

Definition reverseValue (tr : list individualResult) : list individualResult :=
  map (fun i =>
         mk_individualResult (ir_Which i)
           (match ir_Which i with
            | Q => Reverse (ir_Value i)
            | A => ir_Value i
            end)
           (ir_First i) (ir_Last i) (ir_Count i))
      tr.

(** ** The queries the store sends through [s.conn] *)

Definition tuples_key (r : tuples_row) : key3 :=
  (tu_query r, tu_type r, tu_answer r).

Definition individual_key (r : individual_row) : key2 :=
  (in_which r, in_value r).

(** [SELECT * FROM tuples WHERE ...]: the rows as they lie in the table,
    each state read as the value it stands for. *)
Definition select_star_tuples (where_ : tuples_row -> bool) (tbl : list tuples_row)
  : list tupleResult :=
  map (fun r =>
         mk_tupleResult (tu_query r) (tu_type r) (tu_answer r)
           (tu_ttl r) (tu_first r) (tu_last r) (tu_count r))
      (filter where_ tbl).

(** [SELECT query, type, answer, minMerge(first) as first, maxMerge(last)
    as last, sumMerge(count) as count from tuples WHERE ... group by
    query, type, answer ORDER BY query, answer]; [ttl] is not selected
    and stays zero. *)
Definition tuples_merged (g : key3 * list tuples_row) : tupleResult :=
  let '(q, t, a) := fst g in
  mk_tupleResult q t a 0
    (agg_min (map tu_first (snd g)))
    (agg_max (map tu_last (snd g)))
    (agg_sum (map tu_count (snd g))).

Definition tupleResult_leb (x y : tupleResult) : bool :=
  pair_leb (tr_Query x, tr_Answer x) (tr_Query y, tr_Answer y).

Definition select_tuples (where_ : tuples_row -> bool) (tbl : list tuples_row)
  : list tupleResult :=
  order_by tupleResult_leb
    (map tuples_merged (group_by tuples_key key3_eqb (filter where_ tbl))).

(** [SELECT which, value, minMerge(first) as first, maxMerge(last) as
    last, sumMerge(count) as count from individual WHERE ... group by
    which, value ORDER BY value] *)
Definition individual_merged (g : key2 * list individual_row) : individualResult :=
  mk_individualResult (fst (fst g)) (snd (fst g))
    (agg_min (map in_first (snd g)))
    (agg_max (map in_last (snd g)))
    (agg_sum (map in_count (snd g))).

Definition individualResult_leb (x y : individualResult) : bool :=
  string_leb (ir_Value x) (ir_Value y).

Definition select_individual (where_ : individual_row -> bool) (tbl : list individual_row)
  : list individualResult :=
  order_by individualResult_leb
    (map individual_merged (group_by individual_key key2_eqb (filter where_ tbl))).

(** [s.conn.Select(&tr, sql, args...)]: [tr] is filled with the rows of
    the answer, or left as it was when the call fails. *)
Definition conn_Select {R} (sql : string) (run : database -> list R)
  : M (list R * option error) :=
  env <- net_call (Native sql) ;;
  match call_error env with
  | Some e => ret ([], Some e)
  | None => d <- get_db ;; ret (run d, None)
  end.

(** [s.conn.QueryRow(sql, args...).Scan(&fn)]: the error of the call,
    [sql.ErrNoRows] when the answer is empty, else the first row. *)
Definition conn_QueryRow_Scan {R} (sql : string) (run : database -> list R)
  : M (option R * option error) :=
  env <- net_call (Native sql) ;;
  match call_error env with
  | Some e => ret (None, Some e)
  | None =>
      d <- get_db ;;
      match run d with
      | [] => ret (None, Some ErrNoRows)
      | r :: _ => ret (Some r, None)
      end
  end.

(** ** store_clickhouse.go *)

(** The store's connection handles stand for the server; the world
    carries it, so the receiver keeps only its host name. *)
Record CHStore : Type := mk_CHStore { host : string }.

(** [func (s *CHStore) Close() error { return s.Close() }], run with a
    bound on the depth of the call stack: [None] when the bound is hit. *)
Fixpoint Close (depth : nat) (s : CHStore) (w : world)
  : option (world * outcome (option error)) :=
  match depth with
  | O => None
  | S depth' => Close depth' s w
  end.

(** The same as a relation: [Close] returns what its own call returns. *)
Inductive Close_returns (s : CHStore) (w : world)
  : world -> option error -> Prop :=
| Close_call w' r : Close_returns s w w' r -> Close_returns s w w' r.

Definition Exec (query : statement) : M (option error) :=
  env <- net_call (HttpExec query) ;;
  match call_error env with
  | Some e => ret (Some e)
  | None =>
      d <- get_db ;;
      let '(d', err) := run_statement query d in
      put_db d' ;;;
      ret err
  end.

Definition DeleteOld (days : Z) : M (Z * option error) :=
  ret (0, Some (Errorf "clickhouse doesn't support delete")).

(** [client.Post(u, "application/json", r)]: no response and an error
    when the call fails, the server's response and no error otherwise. *)
Definition client_Post (table : string) (r : rows)
  : M (option response * option error) :=
  env <- net_call (HttpPost table) ;;
  match conn_err env with
  | Some e => ret (None, Some e)
  | None =>
      match server_err env with
      | Some msg => ret (Some (mk_response 500 msg (body_err env)), None)
      | None =>
          d <- get_db ;;
          let '(d', (status, body)) := run_insert table r d in
          put_db d' ;;;
          ret (Some (mk_response status body (body_err env)), None)
      end
  end.

Definition ioutil_ReadAll (resp : response) : string * option error :=
  (Body resp, BodyErr resp).

(** [SendJSON] from its [defer] on.  [defer resp.Body.Close()] reads
    [resp.Body] at once; the [err] of the POST is overwritten by that of
    [ReadAll] before anything reads it. *)
Definition SendJSON_after_Post (p : option response * option error)
  : outcome (option error) :=
  let '(resp, _) := p in
  match resp with
  | None => Panic nil_dereference
  | Some resp =>
      let '(body, err) := ioutil_ReadAll resp in
      if 400 <=? StatusCode resp
      then Return (Some (Errorf ("Clickhouse error: " ++ body)))
      else Return err
  end.

Definition SendJSON (table : string) (r : rows) : M (option error) :=
  p <- client_Post table r ;;
  fun w => (w, SendJSON_after_Post p).

(** The function deferred by [Update]: its two [DROP TABLE] calls are
    commented out, so it does nothing. *)
Definition Update_deferred : M unit := ret tt.

Definition Update (ar : aggregationResult) : M (UpdateResult * option error) :=
  let result := zero_UpdateResult in
  start <- time_Now ;;
  Exec (DROP_TABLE tuples_temp) ;;;
  Exec (DROP_TABLE individual_temp) ;;;
  err <- Exec tuples_temp_stmt ;;
  match err with
  | Some e =>
      ret (result, Some (Wrapped e "CHStore.Update failed to create temporary tuples table"))
  | None =>
  err <- Exec individual_temp_stmt ;;
  match err with
  | Some e =>
      ret (result, Some (Wrapped e "CHStore.Update failed to create temporary individual table"))
  | None =>
  with_defer Update_deferred (
  err <- SendJSON "tuples_temp" (TupleJSONReader ar true) ;;
  match err with
  | Some e => ret (result, Some (Wrapped e "CHStore.Update tuples failed"))
  | None =>
  err <- Exec INSERT_INTO_tuples ;;
  match err with
  | Some e => ret (result, Some (Wrapped e "CHStore.Update failed to insert into tuples"))
  | None =>
  err <- SendJSON "individual_temp" (IndividualJSONReader ar true) ;;
  match err with
  | Some e => ret (result, Some (Wrapped e "CHStore.Update individual failed"))
  | None =>
  err <- Exec INSERT_INTO_individual ;;
  match err with
  | Some e => ret (result, Some (Wrapped e "CHStore.Update failed to insert into individual"))
  | None =>
  elapsed <- time_Since start ;;
  ret (mk_UpdateResult elapsed (ur_Inserted result) (ur_Updated result), None)
  end end end end)
  end end.

Definition IsLogIndexed (filename : string) : M (bool * option error) :=
  p <- conn_QueryRow_Scan "SELECT filename FROM filenames WHERE filename=?"
         (fun d => map fn_filename
                     (filter (fun r => String.eqb (fn_filename r) filename) (filenames d))) ;;
  let '(_, err) := p in
  match err with
  | Some ErrNoRows => ret (false, None)
  | Some e => ret (false, Some e)
  | None => ret (true, None)
  end.

Definition FindQueryTuples (query : string) : M (list tupleResult * option error) :=
  let query := Reverse query in
  p <- conn_Select "SELECT * FROM tuples WHERE query = ?"
         (fun d => select_star_tuples (fun r => String.eqb (tu_query r) query) (tuples d)) ;;
  let '(tr, err) := p in
  ret (reverseQuery tr, err).

Definition FindTuples (query : string) : M (list tupleResult * option error) :=
  let rquery := Reverse query in
  p <- conn_Select "SELECT query, type, answer, minMerge(first) as first, maxMerge(last) as last, sumMerge(count) as count from tuples WHERE query = ? OR answer = ? group by query, type, answer ORDER BY query, answer"
         (fun d => select_tuples
                     (fun r => String.eqb (tu_query r) rquery || String.eqb (tu_answer r) query)
                     (tuples d)) ;;
  let '(tr, err) := p in
  ret (reverseQuery tr, err).

Definition LikeTuples (query : string) : M (list tupleResult * option error) :=
  let rquery := Reverse query in
  p <- conn_Select "SELECT query, type, answer, minMerge(first) as first, maxMerge(last) as last, sumMerge(count) as count from tuples WHERE query like ? OR answer like ? group by query, type, answer ORDER BY query, answer"
         (fun d => select_tuples
                     (fun r => like (tu_query r) (rquery ++ "%") || like (tu_answer r) (query ++ "%"))
                     (tuples d)) ;;
  let '(tr, err) := p in
  ret (reverseQuery tr, err).

Definition FindIndividual (value : string) : M (list individualResult * option error) :=
  let rvalue := Reverse value in
  p <- conn_Select "SELECT which, value, minMerge(first) as first, maxMerge(last) as last, sumMerge(count) as count from individual WHERE (which='A' AND value = ?) OR (which='Q' AND value = ?) group by which, value ORDER BY value"
         (fun d => select_individual
                     (fun r => (which_eqb (in_which r) A && String.eqb (in_value r) value)
                               || (which_eqb (in_which r) Q && String.eqb (in_value r) rvalue))
                     (individual d)) ;;
  let '(tr, err) := p in
  ret (reverseValue tr, err).

Definition LikeIndividual (value : string) : M (list individualResult * option error) :=
  let rvalue := Reverse value in
  p <- conn_Select "SELECT which, value, minMerge(first) as first, maxMerge(last) as last, sumMerge(count) as count from individual WHERE (which='A' AND value like ?) OR (which='Q' AND value like ?) group by which, value ORDER BY value"
         (fun d => select_individual
                     (fun r => (which_eqb (in_which r) A && like (in_value r) (value ++ "%"))
                               || (which_eqb (in_which r) Q && like (in_value r) (rvalue ++ "%")))
                     (individual d)) ;;
  let '(tr, err) := p in
  ret (reverseValue tr, err).

(** ** store_clickhouse.go: the ledger is written, the schema set up *)

(** Go's conversion [uint64(x)]. *)
Definition uint64 (x : Z) : Z := x mod UInt64_modulus.

(** A [*sql.Tx]: the rows written in the transaction and not yet
    committed. *)
Record Tx : Type := mk_Tx { tx_rows : list filenames_row }.

(** [s.conn.Begin()]: a transaction, or nil and the error of the call. *)
Definition conn_Begin : M (option Tx * option error) :=
  env <- net_call (Native "BEGIN") ;;
  match call_error env with
  | Some e => ret (None, Some e)
  | None => ret (Some (mk_Tx []), None)
  end.

(** [tx.Exec(q, args...)] for an insert into [filenames]. *)
Definition tx_Exec (tx : Tx) (q : string) (row : filenames_row)
  : M (Tx * option error) :=
  env <- net_call (Native q) ;;
  match call_error env with
  | Some e => ret (tx, Some e)
  | None => ret (mk_Tx (tx_rows tx ++ [row]), None)
  end.

(** [tx.Commit()]: the rows of the transaction reach the table. *)
Definition tx_Commit (tx : Tx) : M (option error) :=
  env <- net_call (Native "COMMIT") ;;
  match call_error env with
  | Some e => ret (Some e)
  | None =>
      d <- get_db ;;
      put_db (mk_database (tuples d) (individual d) (filenames d ++ tx_rows tx)
                (staged_tuples d) (staged_individual d)) ;;;
      ret None
  end.

(** The error of [Begin] is dropped; calling [tx.Exec] on the nil
    transaction of a failed [Begin] dereferences it. *)
Definition SetLogIndexed (filename : string) (ar : aggregationResult)
  (ur : UpdateResult) : M (option error) :=
  p <- conn_Begin ;;
  let '(tx, _) := p in
  let q := "INSERT INTO filenames (filename,
	      aggregation_time, total_records, skipped_records, tuples, individual,
	      store_time, inserted, updated)
	      VALUES (?,?,?,?,?,?,?,?,?)" in
  match tx with
  | None => panic nil_dereference
  | Some tx =>
      p <- tx_Exec tx q
             (mk_filenames_row filename
                (ar_Duration ar) (uint64 (ar_TotalRecords ar))
                (uint64 (ar_SkippedRecords ar))
                (Z.of_nat (List.length (ar_Tuples ar)))
                (Z.of_nat (List.length (ar_Individual ar)))
                (ur_Duration ur) (uint64 (ur_Inserted ur)) (uint64 (ur_Updated ur))) ;;
      let '(tx, err) := p in
      match err with
      | Some e => ret (Some e)
      | None => tx_Commit tx
      end
  end.

(** [Init] and [Clear] send statements the model of the server does not
    cover, so what [s.Exec] does with a statement text is left open
    here. *)
Section SchemaStatements.
Variable Exec_text : string -> M (option error).

Definition chschema : list string :=
  [ "
CREATE TABLE IF NOT EXISTS tuples (
    whatever Date DEFAULT '2000-01-01',
    query String,
    type String,
    answer String,
    ttl AggregateFunction(anyLast, UInt16),
    first AggregateFunction(min, DateTime),
    last AggregateFunction(max, DateTime),
    count AggregateFunction(sum, UInt64)
  ) ENGINE = AggregatingMergeTree(whatever, (query, type, answer), 8192);
";
    "
CREATE TABLE IF NOT EXISTS individual (
    whatever Date DEFAULT '2000-01-01',
    which Enum8('Q'=0, 'A'=1),
    value String,
    first AggregateFunction(min, DateTime),
    last AggregateFunction(max, DateTime),
    count AggregateFunction(sum, UInt64)
  ) ENGINE = AggregatingMergeTree(whatever, (which, value), 8192);
";
    "
CREATE TABLE IF NOT EXISTS filenames (
	day Date DEFAULT toDate(ts),
	ts DateTime DEFAULT now(),
	filename String,
	aggregation_time Float64,
	total_records UInt64,
	skipped_records UInt64,
	tuples UInt64,
	individual UInt64,
	store_time Float64,
	inserted UInt64,
	updated UInt64
  ) ENGINE = MergeTree(day, (filename), 8192);
" ].

(** [for _, stmt := range stmts { err := s.Exec(stmt); if err != nil
    { return err } }; return nil] *)
Fixpoint Exec_range (stmts : list string) : M (option error) :=
  match stmts with
  | [] => ret None
  | stmt :: rest =>
      err <- Exec_text stmt ;;
      match err with
      | Some e => ret (Some e)
      | None => Exec_range rest
      end
  end.

Definition Init : M (option error) := Exec_range chschema.

Definition Clear : M (option error) :=
  let stmts := ["DELETE FROM filenames"; "DELETE FROM individual"; "DELETE FROM tuples"] in
  Exec_range stmts.

(** The statements of a list were all sent, one after the other, and
    none failed. *)
Inductive all_succeed : list string -> world -> world -> Prop :=
| all_succeed_nil w : all_succeed [] w w
| all_succeed_cons stmt rest w w1 w' :
    Exec_text stmt w = (w1, Return None) ->
    all_succeed rest w1 w' ->
    all_succeed (stmt :: rest) w w'.

(** A run over [stmts] that ended with the outcome [o] of one statement:
    the ones before it succeeded, the ones after it were not sent. *)
Definition stopped_at (stmts : list string) (w w' : world)
  (o : outcome (option error)) : Prop :=
  exists done stmt rest w1,
    stmts = (done ++ stmt :: rest)%list /\
    all_succeed done w w1 /\
    Exec_text stmt w1 = (w', o).
End SchemaStatements.

(** ** Vocabulary of the properties *)

(** The requests of one full run of [Update], in order. *)
Definition pipeline : list request :=
  [ HttpExec (DROP_TABLE tuples_temp);
    HttpExec (DROP_TABLE individual_temp);
    HttpExec tuples_temp_stmt;
    HttpExec individual_temp_stmt;
    HttpPost "tuples_temp";
    HttpExec INSERT_INTO_tuples;
    HttpPost "individual_temp";
    HttpExec INSERT_INTO_individual ].

(** The annotation [Update] puts on the error of its n-th request. *)
Definition stage_message (n : nat) : option string :=
  match n with
  | 3%nat => Some "CHStore.Update failed to create temporary tuples table"
  | 4%nat => Some "CHStore.Update failed to create temporary individual table"
  | 5%nat => Some "CHStore.Update tuples failed"
  | 6%nat => Some "CHStore.Update failed to insert into tuples"
  | 7%nat => Some "CHStore.Update individual failed"
  | 8%nat => Some "CHStore.Update failed to insert into individual"
  | _ => None
  end.


Definition tuple_rows (r : rows) : list tuples_temp_row :=
  match r with
  | TupleRows l => l
  | IndividualRows _ => []
  end.

Definition individual_rows (r : rows) : list individual_temp_row :=
  match r with
  | TupleRows _ => []
  | IndividualRows l => l
  end.

(** The rows [Update] stages for a batch. *)
Definition staged_tuple_rows (ar : aggregationResult) : list tuples_temp_row :=
  tuple_rows (TupleJSONReader ar true).

Definition staged_individual_rows (ar : aggregationResult) : list individual_temp_row :=
  individual_rows (IndividualJSONReader ar true).

Definition is_min (m : Z) (xs : list Z) : Prop :=
  In m xs /\ Forall (fun x => m <= x) xs.

Definition is_max (m : Z) (xs : list Z) : Prop :=
  In m xs /\ Forall (fun x => x <= m) xs.


Definition total (xs : list Z) : Z := fold_right Z.add 0 xs.



(** The rows a lookup hands back, whatever error comes with them. *)
Definition returned {T} (o : outcome (list T * option error)) : list T :=
  match o with
  | Return (l, _) => l
  | Panic _ => []
  end.

(** The value under which the row behind a result is stored. *)
Definition stored_value (t : individualResult) : string :=
  match ir_Which t with
  | Q => Reverse (ir_Value t)
  | A => ir_Value t
  end.

(** [tr] answers a lookup for the rows of [tbl] that satisfy [p]: each
    result stands for a stored key that satisfies [p], each stored row
    that satisfies [p] has its key among the results, and query names
    come back reversed. *)
Definition tuple_lookup_of (p : tuples_row -> Prop) (tbl : list tuples_row)
  (tr : list tupleResult) : Prop :=
  (forall t, In t tr ->
     exists r, In r tbl /\ p r /\
       tu_query r = Reverse (tr_Query t) /\ tu_type r = tr_Type t /\
       tu_answer r = tr_Answer t) /\
  (forall r, In r tbl -> p r ->
     exists t, In t tr /\
       tr_Query t = Reverse (tu_query r) /\ tr_Type t = tu_type r /\
       tr_Answer t = tu_answer r).

Definition individual_lookup_of (p : individual_row -> Prop)
  (tbl : list individual_row) (tr : list individualResult) : Prop :=
  (forall t, In t tr ->
     exists r, In r tbl /\ p r /\
       in_which r = ir_Which t /\ in_value r = stored_value t) /\
  (forall r, In r tbl -> p r ->
     exists t, In t tr /\
       ir_Which t = in_which r /\ stored_value t = in_value r).




(** ** Example data *)

Definition example_tuples : list tuples_row :=
  [ mk_tuples_row "b.a" "A" "1.1.1.1" 60 5 9 2;
    mk_tuples_row "a.b" "A" "2.2.2.2" 60 3 4 1;
    mk_tuples_row "a.b" "A" "1.1.1.1" 30 1 7 10;
    mk_tuples_row "moc.elpmaxe" "A" "1.2.3.4" 30 1 7 10 ].

Definition example_individual : list individual_row :=
  [ mk_individual_row A "1.2.3.4" 1 2 3;
    mk_individual_row Q "moc.elpmaxe" 4 5 6;
    mk_individual_row A "moc.elpmaxe" 7 8 9 ].

Definition example_filenames : list filenames_row :=
  [ mk_filenames_row "dns.00.log" 5 10 1 4 6 7 0 0 ].

Definition example_db : database :=
  mk_database example_tuples example_individual example_filenames None None.

Definition example_world : world := mk_world example_db 100 [] [].

Definition example_batch : aggregationResult :=
  mk_aggregationResult 0 3 0
    [ mk_tuples_temp_row "example.com" "A" "1.2.3.4" 60 10 10 1;
      mk_tuples_temp_row "example.com" "A" "1.2.3.4" 30 8 12 1 ]
    [ mk_individual_temp_row Q "example.com" 10 10 1;
      mk_individual_temp_row A "1.2.3.4" 10 10 1 ].

Definition refused : call_env :=
  mk_call_env 1 (Some (Foreign "dial tcp: connection refused")) None None.


(** ** Vocabulary of the further properties *)


(** The stored key a result stands for. *)
Definition stored_tuple_key (t : tupleResult) : key3 :=
  (Reverse (tr_Query t), tr_Type t, tr_Answer t).

Definition stored_individual_key (t : individualResult) : key2 :=
  (ir_Which t, stored_value t).

(** [tr] carries, once per key, the merge of all the rows [tbl] holds
    for that key: min(first), max(last), sum(count) in [UInt64], and no
    ttl. *)
Definition merged_tuple_lookup (tbl : list tuples_row) (tr : list tupleResult)
  : Prop :=
  NoDup (map stored_tuple_key tr) /\
  (forall t, In t tr ->
     let g := filter (fun r => key3_eqb (tuples_key r) (stored_tuple_key t)) tbl in
     g <> [] /\
     tr_TTL t = 0 /\
     is_min (tr_First t) (map tu_first g) /\
     is_max (tr_Last t) (map tu_last g) /\
     tr_Count t = total (map tu_count g) mod UInt64_modulus).

Definition merged_individual_lookup (tbl : list individual_row)
  (tr : list individualResult) : Prop :=
  NoDup (map stored_individual_key tr) /\
  (forall t, In t tr ->
     let g := filter (fun r => key2_eqb (individual_key r) (stored_individual_key t))
                tbl in
     g <> [] /\
     is_min (ir_First t) (map in_first g) /\
     is_max (ir_Last t) (map in_last g) /\
     ir_Count t = total (map in_count g) mod UInt64_modulus).

(** A string without the characters [LIKE] reads as wildcards or
    escapes. *)
Definition plain (s : string) : bool :=
  forallb (fun c => negb (Ascii.eqb c "%" || Ascii.eqb c "_" || Ascii.eqb c "\"))
    (list_ascii_of_string s).

Definition starts_with (s p : string) : Prop := exists rest, s = (p ++ rest)%string.

Definition ends_with (s p : string) : Prop := exists front, s = (front ++ p)%string.



(** * Properties *)

Local Open Scope list_scope.

(** ** Unsupported and broken operations *)

(** C7: whatever [days] is, [DeleteOld] deletes nothing, reports zero
    rows and the error "clickhouse doesn't support delete", and leaves
    the world as it found it. *)
Theorem DeleteOld_always_fails :
  forall (days : Z) (w : world),
    DeleteOld days w
    = (w, Return (0, Some (Errorf "clickhouse doesn't support delete"))).
Proof. reflexivity. Qed.

(** C9: [Close] never returns.  However deep the stack may grow the call
    does not come back, and no finite run of [Close] yields a result. *)
Theorem Close_never_returns :
  forall (s : CHStore) (w : world),
    (forall depth, Close depth s w = None) /\
    (forall w' r, ~ Close_returns s w w' r).
Proof.
  intros s w; split.
  - induction depth as [|depth IH]; simpl; auto.
  - intros w' r H; induction H; assumption.
Qed.

(** C10: when the POST of [SendJSON] fails on the way and hands back no
    response, [SendJSON] panics on the nil response and returns no error
    at all; with a response in hand it returns the error carrying the
    body exactly when the status is 400 or more, and the error of
    reading the body otherwise. *)
Theorem SendJSON_failed_post_faults :
  (forall err, SendJSON_after_Post (None, err) = Panic nil_dereference) /\
  (forall table r w e,
      conn_err (hd quiet (net w)) = Some e ->
      SendJSON table r w
      = (mk_world (db w) (clock w + latency (hd quiet (net w)))
           (tl (net w)) (wire w ++ [HttpPost table]),
         Panic nil_dereference)) /\
  (forall resp err,
      400 <= StatusCode resp ->
      SendJSON_after_Post (Some resp, err)
      = Return (Some (Errorf ("Clickhouse error: " ++ Body resp)%string))) /\
  (forall resp err,
      StatusCode resp < 400 ->
      SendJSON_after_Post (Some resp, err) = Return (BodyErr resp)).
Proof.
  repeat split.
  - intros table r w e He.
    unfold SendJSON, client_Post, bind, net_call; simpl.
    rewrite He; reflexivity.
  - intros resp err Hs; simpl.
    destruct (Z.leb_spec 400 (StatusCode resp)); [reflexivity | lia].
  - intros resp err Hs; simpl.
    destruct (Z.leb_spec 400 (StatusCode resp)); [lia | reflexivity].
Qed.

Lemma SendJSON_failed_post_faults_witness :
  SendJSON "tuples_temp" (TupleRows [])
    (mk_world example_db 100 [refused] [])
  = (mk_world example_db 101 [] [HttpPost "tuples_temp"], Panic nil_dereference) /\
  SendJSON_after_Post (Some (mk_response 500 "Code: 241" None), None)
  = Return (Some (Errorf "Clickhouse error: Code: 241")) /\
  SendJSON_after_Post (Some (mk_response 200 EmptyString None), None) = Return None.
Proof.
  destruct SendJSON_failed_post_faults as (_ & Hw & Hhi & Hlo).
  split; [| split].
  - apply (Hw "tuples_temp" (TupleRows [])
              (mk_world example_db 100 [refused] [])
              (Foreign "dial tcp: connection refused")).
    reflexivity.
  - apply (Hhi (mk_response 500 "Code: 241" None) None). simpl; lia.
  - apply (Hlo (mk_response 200 EmptyString None) None). simpl; lia.
Defined.

(** ** The ledger *)

Lemma filter_nil_iff {T} (f : T -> bool) (l : list T) :
  filter f l = [] <-> (forall x, In x l -> f x = false).
Proof.
  induction l as [|a l IH]; simpl.
  - split; [intros _ x [] | reflexivity].
  - destruct (f a) eqn:Fa; split.
    + discriminate.
    + intros H. specialize (H a (or_introl eq_refl)). congruence.
    + intros H x [<-|Hx]; [assumption | apply IH; assumption].
    + intros H. apply IH. intros x Hx. apply H. right; assumption.
Qed.

(** C6: [IsLogIndexed] only reads.  When the lookup itself goes through,
    it answers (true, nil) if some ledger row carries exactly that file
    name and (false, nil) if none does, and in no other case; when the
    lookup fails with an error other than [sql.ErrNoRows] it answers
    (false, that error). *)
Theorem IsLogIndexed_cases :
  forall (filename : string) (w : world),
    let found := exists r, In r (filenames (db w)) /\ fn_filename r = filename in
    db (fst (IsLogIndexed filename w)) = db w /\
    (call_error (hd quiet (net w)) = None ->
       (found -> snd (IsLogIndexed filename w) = Return (true, None)) /\
       (~ found <-> snd (IsLogIndexed filename w) = Return (false, None))) /\
    (forall e, call_error (hd quiet (net w)) = Some e -> e <> ErrNoRows ->
       snd (IsLogIndexed filename w) = Return (false, Some e)).
Proof.
  intros filename w found.
  unfold IsLogIndexed, conn_QueryRow_Scan, bind, net_call, get_db, ret; simpl.
  destruct (call_error (hd quiet (net w))) as [e|] eqn:Hc.
  - simpl. split; [destruct e; reflexivity|].
    split; [discriminate|].
    intros e' [= <-] Hne. destruct e; try reflexivity. congruence.
  - simpl.
    destruct (filter (fun r => (fn_filename r =? filename)%string) (filenames (db w)))
      as [|r rs] eqn:Hf; simpl.
    + assert (Hno : ~ found).
      { intros (r & Hin & Hr).
        pose proof (proj1 (filter_nil_iff _ _) Hf r Hin) as Hb.
        apply String.eqb_neq in Hb. contradiction. }
      split; [reflexivity|]. split; [|discriminate].
      intros _. split; [contradiction|]. split; auto.
    + assert (Hr : In r (filter (fun r => (fn_filename r =? filename)%string)
                           (filenames (db w)))) by (rewrite Hf; left; reflexivity).
      apply filter_In in Hr. destruct Hr as [Hin Hr].
      apply String.eqb_eq in Hr.
      assert (Hyes : found) by (exists r; split; assumption).
      split; [reflexivity|]. split; [|discriminate].
      intros _. split; [reflexivity|]. split; [contradiction | discriminate].
Qed.

Lemma IsLogIndexed_cases_witness :
  snd (IsLogIndexed "dns.00.log" example_world) = Return (true, None) /\
  snd (IsLogIndexed "dns.01.log" example_world) = Return (false, None) /\
  snd (IsLogIndexed "dns.00.log" (mk_world example_db 100 [refused] []))
  = Return (false, Some (Foreign "dial tcp: connection refused")).
Proof.
  split; [| split].
  - apply (IsLogIndexed_cases "dns.00.log" example_world); [reflexivity|].
    exists (mk_filenames_row "dns.00.log" 5 10 1 4 6 7 0 0).
    split; [left; reflexivity | reflexivity].
  - apply (IsLogIndexed_cases "dns.01.log" example_world); [reflexivity|].
    intros (r & [<-|[]] & Hr). discriminate Hr.
  - apply (IsLogIndexed_cases "dns.00.log" (mk_world example_db 100 [refused] []));
      [reflexivity | discriminate].
Defined.

(** ** Grouping and aggregation *)

Lemma key3_eqb_eq (a b : key3) : key3_eqb a b = true <-> a = b.
Proof.
  destruct a as [[q1 t1] a1], b as [[q2 t2] a2]; simpl.
  rewrite !andb_true_iff, !String.eqb_eq.
  split; [intros [[-> ->] ->]; reflexivity | intros [= -> -> ->]; auto].
Qed.

Lemma which_eqb_eq (a b : which) : which_eqb a b = true <-> a = b.
Proof. destruct a, b; simpl; split; congruence. Qed.

Lemma key2_eqb_eq (a b : key2) : key2_eqb a b = true <-> a = b.
Proof.
  destruct a as [w1 v1], b as [w2 v2]; unfold key2_eqb; simpl.
  rewrite andb_true_iff, which_eqb_eq, String.eqb_eq.
  split; [intros [-> ->]; reflexivity | intros [= -> ->]; auto].
Qed.

Section GroupByFacts.
Context {R K : Type}.
Variable key : R -> K.
Variable keqb : K -> K -> bool.
Hypothesis keqb_eq : forall a b, keqb a b = true <-> a = b.

Lemma keqb_refl k : keqb k k = true.
Proof. apply keqb_eq; reflexivity. Qed.

Lemma In_distinct ks k : In k (distinct keqb ks) <-> In k ks.
Proof.
  induction ks as [|a ks IH]; simpl; [tauto|].
  rewrite filter_In, IH, negb_true_iff.
  split.
  - intros [H | [H _]]; auto.
  - intros [H | H]; auto.
    destruct (keqb a k) eqn:E; [left; apply keqb_eq; assumption | right; auto].
Qed.

Lemma NoDup_distinct ks : NoDup (distinct keqb ks).
Proof.
  induction ks as [|a ks IH]; simpl; constructor.
  - rewrite filter_In, negb_true_iff, keqb_refl. intros [_ H]; discriminate.
  - apply NoDup_filter; assumption.
Qed.

Lemma map_fst_group_by rows :
  map fst (group_by key keqb rows) = distinct keqb (map key rows).
Proof.
  unfold group_by. rewrite map_map; simpl. apply map_id.
Qed.

Lemma In_group_by rows g :
  In g (group_by key keqb rows) <->
  In (fst g) (map key rows) /\
  snd g = filter (fun r => keqb (key r) (fst g)) rows.
Proof.
  unfold group_by. rewrite in_map_iff. split.
  - intros (k & <- & Hk); simpl. apply (proj1 (In_distinct _ _)) in Hk.
    split; [assumption | reflexivity].
  - intros [Hk Hg]. exists (fst g). split.
    + destruct g; simpl in *; congruence.
    + apply In_distinct; assumption.
Qed.

Lemma group_nonempty rows k :
  In k (map key rows) -> filter (fun r => keqb (key r) k) rows <> [].
Proof.
  intros Hk Hnil. apply in_map_iff in Hk. destruct Hk as (r & <- & Hr).
  pose proof (proj1 (filter_nil_iff _ _) Hnil r Hr) as Hb.
  simpl in Hb. rewrite keqb_refl in Hb. discriminate.
Qed.
End GroupByFacts.

Lemma fold_min_le xs : forall a, fold_left Z.min xs a <= a.
Proof.
  induction xs as [|x xs IH]; simpl; intros a; [lia|].
  specialize (IH (Z.min a x)). lia.
Qed.

Lemma fold_min_spec xs : forall a,
  In (fold_left Z.min xs a) (a :: xs) /\
  Forall (fun x => fold_left Z.min xs a <= x) (a :: xs).
Proof.
  induction xs as [|x xs IH]; simpl; intros a.
  - split; [auto | repeat constructor; lia].
  - destruct (IH (Z.min a x)) as [Hin Hall].
    pose proof (fold_min_le xs (Z.min a x)) as Hle.
    inversion Hall as [|? ? H1 H2]; subst. split.
    + destruct Hin as [Hin | Hin]; [| right; right; assumption].
      rewrite <- Hin.
      destruct (Z.min_spec a x) as [[_ E] | [_ E]]; rewrite E; simpl; auto.
    + constructor; [lia|]. constructor; [lia | assumption].
Qed.

Lemma fold_max_ge xs : forall a, a <= fold_left Z.max xs a.
Proof.
  induction xs as [|x xs IH]; simpl; intros a; [lia|].
  specialize (IH (Z.max a x)). lia.
Qed.

Lemma fold_max_spec xs : forall a,
  In (fold_left Z.max xs a) (a :: xs) /\
  Forall (fun x => x <= fold_left Z.max xs a) (a :: xs).
Proof.
  induction xs as [|x xs IH]; simpl; intros a.
  - split; [auto | repeat constructor; lia].
  - destruct (IH (Z.max a x)) as [Hin Hall].
    pose proof (fold_max_ge xs (Z.max a x)) as Hle.
    inversion Hall as [|? ? H1 H2]; subst. split.
    + destruct Hin as [Hin | Hin]; [| right; right; assumption].
      rewrite <- Hin.
      destruct (Z.max_spec a x) as [[_ E] | [_ E]]; rewrite E; simpl; auto.
    + constructor; [lia|]. constructor; [lia | assumption].
Qed.

Lemma agg_min_spec xs : xs <> [] -> is_min (agg_min xs) xs.
Proof.
  destruct xs as [|x xs]; [congruence|]. intros _. apply fold_min_spec.
Qed.

Lemma agg_max_spec xs : xs <> [] -> is_max (agg_max xs) xs.
Proof.
  destruct xs as [|x xs]; [congruence|]. intros _. apply fold_max_spec.
Qed.


Lemma agg_sum_spec xs : agg_sum xs = total xs mod UInt64_modulus.
Proof.
  unfold agg_sum.
  assert (G : forall a,
             fold_left (fun acc x => (acc + x) mod UInt64_modulus) xs (a mod UInt64_modulus)
             = (a + total xs) mod UInt64_modulus).
  { induction xs as [|x xs IH]; simpl; intros a.
    - rewrite Z.add_0_r. reflexivity.
    - rewrite Zplus_mod_idemp_l, IH. f_equal. lia. }
  specialize (G 0). rewrite Z.add_0_l in G. exact G.
Qed.

Lemma map_nonempty {T U} (f : T -> U) (l : list T) : l <> [] -> map f l <> [].
Proof. destruct l; simpl; congruence. Qed.




(** ** The stage-and-commit pipeline *)

Ltac split_match H :=
  match type of H with
  | context [match ?x with _ => _ end] =>
      lazymatch x with
      | context [match _ with _ => _ end] => fail
      | _ => destruct x eqn:?; simpl in H; try discriminate H
      end
  end.

Ltac run_described :=
  cbn [db clock net wire tuples individual filenames staged_tuples staged_individual
       firstn pipeline stage_message Nat.leb app];
  rewrite <- ?app_assoc, ?app_nil_r;
  repeat (split || eexists);
  solve [reflexivity | auto | f_equal; lia].

(** Every run of [Update], described: how many requests of the pipeline
    it sent and what it left in the tables. *)
Lemma Update_outcome ar w w' o :
  Update ar w = (w', o) ->
  exists n,
    wire w' = wire w ++ firstn n pipeline /\
    filenames (db w') = filenames (db w) /\
    individual (db w')
    = individual (db w)
      ++ (if (8 <=? n)%nat && match o with Return (_, None) => true | _ => false end
          then select_individual_temp (staged_individual_rows ar) else []) /\
    tuples (db w')
    = tuples (db w)
      ++ (if (7 <=? n)%nat then select_tuples_temp (staged_tuple_rows ar) else []) /\
    match o with
    | Return (result, None) =>
        n = 8%nat /\
        staged_tuples (db w') = Some (staged_tuple_rows ar) /\
        staged_individual (db w') = Some (staged_individual_rows ar) /\
        result = mk_UpdateResult (clock w' - clock w) 0 0
    | Return (result, Some e) =>
        result = zero_UpdateResult /\
        exists cause msg, e = Wrapped cause msg /\ stage_message n = Some msg
    | Panic msg =>
        msg = nil_dereference /\ (n = 5 \/ n = 7)%nat
    end.
Proof.
  unfold Update, with_defer, Update_deferred, SendJSON, Exec, client_Post,
    time_Since, time_Now, bind, ret, net_call, get_db, put_db,
    SendJSON_after_Post, ioutil_ReadAll, tuples_temp_stmt, individual_temp_stmt,
    staged_tuple_rows, staged_individual_rows, TupleJSONReader, IndividualJSONReader.
  cbn [db clock net wire fst snd tuple_rows individual_rows].
  intros H.
  repeat split_match H.
  all: injection H as <- <-.
  all: first [ exists 3%nat; run_described | exists 4%nat; run_described
            | exists 5%nat; run_described | exists 6%nat; run_described
            | exists 7%nat; run_described | exists 8%nat; run_described ].
Qed.









(** ** Strings and their order *)

Lemma Reverse_involutive s : Reverse (Reverse s) = s.
Proof.
  unfold Reverse.
  rewrite list_ascii_of_string_of_list_ascii, rev_involutive.
  apply string_of_list_ascii_of_string.
Qed.








(** ** Ordering *)

Section OrderByFacts.
Context {R : Type}.
Variable leb : R -> R -> bool.
Hypothesis leb_total : forall a b, leb a b = false -> leb b a = true.
Hypothesis leb_trans :
  forall a b c, leb a b = true -> leb b c = true -> leb a c = true.

Lemma insert_sorted_perm r rs : Permutation (insert_sorted leb r rs) (r :: rs).
Proof.
  induction rs as [|a rs IH]; simpl; [reflexivity|].
  destruct (leb r a); [reflexivity|].
  rewrite IH. apply perm_swap.
Qed.

Lemma order_by_perm rs : Permutation (order_by leb rs) rs.
Proof.
  induction rs as [|a rs IH]; simpl; [reflexivity|].
  rewrite insert_sorted_perm. constructor; assumption.
Qed.

Lemma In_order_by rs x : In x (order_by leb rs) <-> In x rs.
Proof.
  split; apply Permutation_in; [| symmetry]; apply order_by_perm.
Qed.


End OrderByFacts.


(** ** Lookups *)

Lemma tuples_merged_key g :
  (tr_Query (tuples_merged g), tr_Type (tuples_merged g), tr_Answer (tuples_merged g))
  = fst g.
Proof. destruct g as [[[q t] a] rs]; reflexivity. Qed.

Lemma select_tuples_sound where_ tbl t :
  In t (select_tuples where_ tbl) ->
  exists r, In r tbl /\ where_ r = true /\
            tuples_key r = (tr_Query t, tr_Type t, tr_Answer t).
Proof.
  unfold select_tuples. rewrite In_order_by, in_map_iff.
  intros (g & <- & Hg).
  apply (In_group_by _ _ key3_eqb_eq) in Hg. destruct Hg as [Hk _].
  apply in_map_iff in Hk. destruct Hk as (r & Hr & Hin).
  apply filter_In in Hin. destruct Hin as [Hin Hw].
  exists r. rewrite tuples_merged_key. auto.
Qed.

Lemma select_tuples_complete where_ tbl r :
  In r tbl -> where_ r = true ->
  exists t, In t (select_tuples where_ tbl) /\
            (tr_Query t, tr_Type t, tr_Answer t) = tuples_key r.
Proof.
  intros Hin Hw.
  set (g := (tuples_key r,
             filter (fun x => key3_eqb (tuples_key x) (tuples_key r)) (filter where_ tbl))).
  exists (tuples_merged g). split.
  - unfold select_tuples. rewrite In_order_by. apply in_map.
    apply (In_group_by _ _ key3_eqb_eq). split; [| reflexivity].
    simpl. apply in_map. apply filter_In. auto.
  - apply tuples_merged_key.
Qed.

Lemma reverseQuery_select_tuples where_ tbl :
  tuple_lookup_of (fun r => where_ r = true) tbl
    (reverseQuery (select_tuples where_ tbl)).
Proof.
  split.
  - intros t' Ht'. apply in_map_iff in Ht'. destruct Ht' as (t & <- & Ht).
    destruct (select_tuples_sound _ _ _ Ht) as (r & Hin & Hw & Hk).
    injection Hk as Hq Hty Ha.
    exists r. simpl. rewrite Reverse_involutive. auto.
  - intros r Hin Hw.
    destruct (select_tuples_complete _ _ _ Hin Hw) as (t & Ht & Hk).
    injection Hk as Hq Hty Ha.
    eexists. split; [apply in_map; exact Ht|].
    simpl. rewrite Hq. auto.
Qed.

Lemma tuple_lookup_of_iff (p p' : tuples_row -> Prop) tbl tr :
  (forall r, p r <-> p' r) ->
  tuple_lookup_of p tbl tr -> tuple_lookup_of p' tbl tr.
Proof.
  intros Hp [Hs Hc]. split.
  - intros t Ht. destruct (Hs t Ht) as (r & Hin & Hr & Hk).
    exists r. split; [assumption|]. split; [apply Hp; assumption | assumption].
  - intros r Hin Hr. apply Hc; [assumption | apply Hp; assumption].
Qed.

Lemma individual_merged_key g :
  (ir_Which (individual_merged g), ir_Value (individual_merged g)) = fst g.
Proof. destruct g as [[wh v] rs]; reflexivity. Qed.

Lemma select_individual_sound where_ tbl t :
  In t (select_individual where_ tbl) ->
  exists r, In r tbl /\ where_ r = true /\
            individual_key r = (ir_Which t, ir_Value t).
Proof.
  unfold select_individual. rewrite In_order_by, in_map_iff.
  intros (g & <- & Hg).
  apply (In_group_by _ _ key2_eqb_eq) in Hg. destruct Hg as [Hk _].
  apply in_map_iff in Hk. destruct Hk as (r & Hr & Hin).
  apply filter_In in Hin. destruct Hin as [Hin Hw].
  exists r. rewrite individual_merged_key. auto.
Qed.

Lemma select_individual_complete where_ tbl r :
  In r tbl -> where_ r = true ->
  exists t, In t (select_individual where_ tbl) /\
            (ir_Which t, ir_Value t) = individual_key r.
Proof.
  intros Hin Hw.
  set (g := (individual_key r,
             filter (fun x => key2_eqb (individual_key x) (individual_key r))
               (filter where_ tbl))).
  exists (individual_merged g). split.
  - unfold select_individual. rewrite In_order_by. apply in_map.
    apply (In_group_by _ _ key2_eqb_eq). split; [| reflexivity].
    simpl. apply in_map. apply filter_In. auto.
  - apply individual_merged_key.
Qed.

Lemma stored_value_reverseValue t :
  stored_value
    (mk_individualResult (ir_Which t)
       (match ir_Which t with Q => Reverse (ir_Value t) | A => ir_Value t end)
       (ir_First t) (ir_Last t) (ir_Count t))
  = ir_Value t.
Proof.
  unfold stored_value; simpl. destruct (ir_Which t); [apply Reverse_involutive | reflexivity].
Qed.

Lemma reverseValue_select_individual where_ tbl :
  individual_lookup_of (fun r => where_ r = true) tbl
    (reverseValue (select_individual where_ tbl)).
Proof.
  split.
  - intros t' Ht'. apply in_map_iff in Ht'. destruct Ht' as (t & <- & Ht).
    destruct (select_individual_sound _ _ _ Ht) as (r & Hin & Hw & Hk).
    injection Hk as Hwh Hv.
    exists r. rewrite stored_value_reverseValue. simpl. auto.
  - intros r Hin Hw.
    destruct (select_individual_complete _ _ _ Hin Hw) as (t & Ht & Hk).
    injection Hk as Hwh Hv.
    eexists. split; [apply in_map; exact Ht|].
    rewrite stored_value_reverseValue. simpl. auto.
Qed.

Lemma individual_lookup_of_iff (p p' : individual_row -> Prop) tbl tr :
  (forall r, p r <-> p' r) ->
  individual_lookup_of p tbl tr -> individual_lookup_of p' tbl tr.
Proof.
  intros Hp [Hs Hc]. split.
  - intros t Ht. destruct (Hs t Ht) as (r & Hin & Hr & Hk).
    exists r. split; [assumption|]. split; [apply Hp; assumption | assumption].
  - intros r Hin Hr. apply Hc; [assumption | apply Hp; assumption].
Qed.

(** C1, as the code has it: [FindTuples] and [LikeTuples] compare the
    query column with the reversed input and the answer column with the
    input as given.  Their results stand for exactly the stored keys
    whose query equals (or is like) Reverse(q) or whose answer equals
    (or is like) q. *)
Theorem FindTuples_reversed_query_literal_answer :
  forall (query : string) (w : world),
    call_error (hd quiet (net w)) = None ->
    (exists tr,
        snd (FindTuples query w) = Return (tr, None) /\
        tuple_lookup_of
          (fun r => tu_query r = Reverse query \/ tu_answer r = query)
          (tuples (db w)) tr) /\
    (exists tr,
        snd (LikeTuples query w) = Return (tr, None) /\
        tuple_lookup_of
          (fun r => like (tu_query r) (Reverse query ++ "%")%string = true \/
                    like (tu_answer r) (query ++ "%")%string = true)
          (tuples (db w)) tr).
Proof.
  intros query w Hc. split.
  - eexists. split.
    + unfold FindTuples, conn_Select, bind, net_call, get_db, ret; simpl.
      rewrite Hc. reflexivity.
    + eapply tuple_lookup_of_iff; [| apply reverseQuery_select_tuples].
      intros r; simpl. rewrite orb_true_iff, !String.eqb_eq. reflexivity.
  - eexists. split.
    + unfold LikeTuples, conn_Select, bind, net_call, get_db, ret; simpl.
      rewrite Hc. reflexivity.
    + eapply tuple_lookup_of_iff; [| apply reverseQuery_select_tuples].
      intros r; simpl. rewrite orb_true_iff. reflexivity.
Qed.

Lemma FindTuples_reversed_query_literal_answer_witness :
  (exists tr,
      snd (FindTuples "1.2.3.4" example_world) = Return (tr, None) /\
      tuple_lookup_of
        (fun r => tu_query r = Reverse "1.2.3.4" \/ tu_answer r = "1.2.3.4")
        (tuples (db example_world)) tr) /\
  (exists tr,
      snd (LikeTuples "1.2.3.4" example_world) = Return (tr, None) /\
      tuple_lookup_of
        (fun r => like (tu_query r) (Reverse "1.2.3.4" ++ "%")%string = true \/
                  like (tu_answer r) ("1.2.3.4" ++ "%")%string = true)
        (tuples (db example_world)) tr).
Proof.
  apply (FindTuples_reversed_query_literal_answer "1.2.3.4" example_world).
  reflexivity.
Defined.

(** C1 as stated fails: looked up by "1.2.3.4", the example table gives
    back a row, though no stored row has "4.3.2.1" as its query or as
    its answer. *)
Lemma FindTuples_answer_not_compared_reversed :
  returned (snd (FindTuples "1.2.3.4" example_world))
  = [mk_tupleResult "example.com" "A" "1.2.3.4" 0 1 7 10] /\
  ~ tuple_lookup_of
      (fun r => tu_query r = Reverse "1.2.3.4" \/ tu_answer r = Reverse "1.2.3.4")
      (tuples (db example_world))
      (returned (snd (FindTuples "1.2.3.4" example_world))).
Proof.
  split; [reflexivity|].
  intros [Hs _].
  destruct (Hs (mk_tupleResult "example.com" "A" "1.2.3.4" 0 1 7 10)
              (or_introl eq_refl)) as (r & Hin & Hr & _).
  simpl in Hin.
  destruct Hin as [<- | [<- | [<- | [<- | []]]]];
    destruct Hr as [Hr | Hr]; discriminate Hr.
Qed.

(** C4: [FindIndividual] and [LikeIndividual] compare the input as given
    with Answer rows only and the reversed input with Query rows only.
    A result marked Query stands for a stored Query row whose value is
    the reversed input, a result marked Answer for a stored Answer row
    whose value is the input. *)
Theorem individual_lookups_discriminate_which :
  forall (value : string) (w : world),
    call_error (hd quiet (net w)) = None ->
    (exists tr,
        snd (FindIndividual value w) = Return (tr, None) /\
        individual_lookup_of
          (fun r => (in_which r = A /\ in_value r = value) \/
                    (in_which r = Q /\ in_value r = Reverse value))
          (individual (db w)) tr /\
        (forall t, In t tr -> ir_Which t = Q ->
           exists r, In r (individual (db w)) /\
                     in_which r = Q /\ in_value r = Reverse value) /\
        (forall t, In t tr -> ir_Which t = A ->
           exists r, In r (individual (db w)) /\
                     in_which r = A /\ in_value r = value)) /\
    (exists tr,
        snd (LikeIndividual value w) = Return (tr, None) /\
        individual_lookup_of
          (fun r => (in_which r = A /\ like (in_value r) (value ++ "%")%string = true) \/
                    (in_which r = Q /\
                     like (in_value r) (Reverse value ++ "%")%string = true))
          (individual (db w)) tr).
Proof.
  intros value w Hc. split.
  - eexists. split; [| split; [| split]].
    + unfold FindIndividual, conn_Select, bind, net_call, get_db, ret; simpl.
      rewrite Hc. reflexivity.
    + eapply individual_lookup_of_iff; [| apply reverseValue_select_individual].
      intros r; simpl.
      rewrite orb_true_iff, !andb_true_iff, !which_eqb_eq, !String.eqb_eq.
      reflexivity.
    + intros t Ht Hq.
      destruct (proj1 (reverseValue_select_individual _ _) t Ht)
        as (r & Hin & Hr & Hwh & _).
      exists r. split; [assumption|]. rewrite Hq in Hwh.
      apply orb_true_iff in Hr. rewrite !andb_true_iff, !String.eqb_eq in Hr.
      destruct Hr as [[Ha _] | [_ Hv]].
      * rewrite Hwh in Ha. discriminate Ha.
      * auto.
    + intros t Ht Ha.
      destruct (proj1 (reverseValue_select_individual _ _) t Ht)
        as (r & Hin & Hr & Hwh & _).
      exists r. split; [assumption|]. rewrite Ha in Hwh.
      apply orb_true_iff in Hr. rewrite !andb_true_iff, !String.eqb_eq in Hr.
      destruct Hr as [[_ Hv] | [Hq _]].
      * auto.
      * rewrite Hwh in Hq. discriminate Hq.
  - eexists. split.
    + unfold LikeIndividual, conn_Select, bind, net_call, get_db, ret; simpl.
      rewrite Hc. reflexivity.
    + eapply individual_lookup_of_iff; [| apply reverseValue_select_individual].
      intros r; simpl.
      rewrite orb_true_iff, !andb_true_iff, !which_eqb_eq.
      reflexivity.
Qed.

Lemma individual_lookups_discriminate_which_witness :
  snd (FindIndividual "moc.elpmaxe" example_world)
  = Return ([mk_individualResult A "moc.elpmaxe" 7 8 9], None) /\
  (exists tr,
      snd (FindIndividual "example.com" example_world) = Return (tr, None) /\
      individual_lookup_of
        (fun r => (in_which r = A /\ in_value r = "example.com") \/
                  (in_which r = Q /\ in_value r = Reverse "example.com"))
        (individual (db example_world)) tr /\
      (forall t, In t tr -> ir_Which t = Q ->
         exists r, In r (individual (db example_world)) /\
                   in_which r = Q /\ in_value r = Reverse "example.com") /\
      (forall t, In t tr -> ir_Which t = A ->
         exists r, In r (individual (db example_world)) /\
                   in_which r = A /\ in_value r = "example.com")).
Proof.
  split; [reflexivity|].
  apply (individual_lookups_discriminate_which "example.com" example_world).
  reflexivity.
Defined.








(** * Further properties of the store *)

(** ** What [Update] leaves alone, reports and composes to *)

(** X1: [Update] never writes the ledger.  However it ends, the table
    [filenames] is as before, so [IsLogIndexed] answers for every file
    what it answered before the run. *)
Theorem Update_keeps_ledger :
  forall ar w w' o,
    Update ar w = (w', o) ->
    filenames (db w') = filenames (db w) /\
    (forall f c n s,
        snd (IsLogIndexed f (mk_world (db w') c n s))
        = snd (IsLogIndexed f (mk_world (db w) c n s))).
Proof.
  intros ar w w' o H.
  destruct (Update_outcome _ _ _ _ H) as (n & _ & Hf & _).
  split; [assumption|].
  intros f c nt s.
  unfold IsLogIndexed, conn_QueryRow_Scan, bind, net_call, get_db, ret; simpl.
  destruct (call_error (hd quiet nt)) as [e|]; simpl.
  - destruct e; reflexivity.
  - rewrite Hf.
    destruct (map fn_filename
                (filter (fun r => (fn_filename r =? f)%string) (filenames (db w))));
      reflexivity.
Qed.

Lemma Update_keeps_ledger_witness :
  filenames (db (fst (Update example_batch example_world)))
  = filenames (db example_world) /\
  (forall f c n s,
      snd (IsLogIndexed f
             (mk_world (db (fst (Update example_batch example_world))) c n s))
      = snd (IsLogIndexed f (mk_world (db example_world) c n s))).
Proof.
  apply (Update_keeps_ledger example_batch example_world
           (fst (Update example_batch example_world))
           (snd (Update example_batch example_world))).
  vm_compute. reflexivity.
Defined.

(** X2: the [UpdateResult] of [Update] never counts rows.  [Inserted]
    and [Updated] are zero whenever [Update] returns; [Duration] is the
    time the run took when it succeeds and zero when it fails. *)
Theorem Update_result_has_no_counts :
  forall ar w w' result err,
    Update ar w = (w', Return (result, err)) ->
    ur_Inserted result = 0 /\
    ur_Updated result = 0 /\
    ur_Duration result
    = match err with
      | None => clock w' - clock w
      | Some _ => 0
      end.
Proof.
  intros ar w w' result err H.
  destruct (Update_outcome _ _ _ _ H) as (n & _ & _ & _ & _ & Ho).
  destruct err as [e|].
  - destruct Ho as (-> & _). repeat split.
  - destruct Ho as (_ & _ & _ & ->). repeat split.
Qed.

Lemma Update_result_has_no_counts_witness :
  ur_Inserted (mk_UpdateResult 6 0 0) = 0 /\
  ur_Updated (mk_UpdateResult 6 0 0) = 0 /\
  ur_Duration (mk_UpdateResult 6 0 0)
  = clock (fst (Update example_batch
                  (mk_world example_db 100
                     [mk_call_env 1 None None None; mk_call_env 2 None None None;
                      mk_call_env 3 None None None] [])))
    - clock (mk_world example_db 100
               [mk_call_env 1 None None None; mk_call_env 2 None None None;
                mk_call_env 3 None None None] []).
Proof.
  apply (Update_result_has_no_counts example_batch
           (mk_world example_db 100
              [mk_call_env 1 None None None; mk_call_env 2 None None None;
               mk_call_env 3 None None None] [])
           (fst (Update example_batch
                   (mk_world example_db 100
                      [mk_call_env 1 None None None; mk_call_env 2 None None None;
                       mk_call_env 3 None None None] [])))
           (mk_UpdateResult 6 0 0) None).
  vm_compute. reflexivity.
Defined.





(** ** What the lookups leave alone and what they merge *)

Lemma conn_Select_run {T} sql (run : database -> list T) w :
  conn_Select sql run w
  = (mk_world (db w) (clock w + latency (hd quiet (net w))) (tl (net w))
       (wire w ++ [Native sql]),
     Return (match call_error (hd quiet (net w)) with
             | Some e => ([], Some e)
             | None => (run (db w), None)
             end)).
Proof.
  unfold conn_Select, bind, net_call, get_db, ret; simpl.
  destruct (call_error (hd quiet (net w))); reflexivity.
Qed.

Ltac run_lookup :=
  unfold FindQueryTuples, FindTuples, LikeTuples, FindIndividual, LikeIndividual;
  unfold bind; rewrite !conn_Select_run; unfold ret.





Section KeyedFilter.
Context {R K : Type}.
Variable key : R -> K.
Variable keqb : K -> K -> bool.
Hypothesis keqb_eq : forall a b, keqb a b = true <-> a = b.
Variable where_ : R -> bool.
Hypothesis where_key : forall r r', key r = key r' -> where_ r = where_ r'.

Lemma filter_key_where tbl r0 :
  where_ r0 = true ->
  filter (fun r => keqb (key r) (key r0)) (filter where_ tbl)
  = filter (fun r => keqb (key r) (key r0)) tbl.
Proof.
  intros Hr0. induction tbl as [|r tbl IH]; simpl; [reflexivity|].
  destruct (where_ r) eqn:Hw; simpl; rewrite IH; [reflexivity|].
  destruct (keqb (key r) (key r0)) eqn:Hk; [| reflexivity].
  apply keqb_eq in Hk. rewrite (where_key _ _ Hk) in Hw. congruence.
Qed.

Lemma group_of_where tbl g :
  In g (group_by key keqb (filter where_ tbl)) ->
  snd g = filter (fun r => keqb (key r) (fst g)) tbl /\ snd g <> [].
Proof.
  intros Hg. apply (In_group_by _ _ keqb_eq) in Hg. destruct Hg as [Hk Hrows].
  pose proof (group_nonempty _ _ keqb_eq _ _ Hk) as Hne.
  apply in_map_iff in Hk. destruct Hk as (r0 & Hr0 & Hin).
  apply filter_In in Hin. destruct Hin as [_ Hw].
  rewrite <- Hr0 in Hrows, Hne |- *.
  rewrite filter_key_where in Hrows, Hne by assumption.
  rewrite Hrows. split; [reflexivity | assumption].
Qed.
End KeyedFilter.

Lemma select_tuples_keys where_ tbl :
  map (fun t => (tr_Query t, tr_Type t, tr_Answer t)) (select_tuples where_ tbl)
  = map (fun t => (tr_Query t, tr_Type t, tr_Answer t))
      (order_by tupleResult_leb
         (map tuples_merged (group_by tuples_key key3_eqb (filter where_ tbl)))).
Proof. reflexivity. Qed.

Lemma select_tuples_NoDup where_ tbl :
  NoDup (map (fun t => (tr_Query t, tr_Type t, tr_Answer t))
           (select_tuples where_ tbl)).
Proof.
  unfold select_tuples.
  eapply Permutation_NoDup.
  - apply Permutation_map. symmetry. apply order_by_perm.
  - rewrite map_map.
    rewrite (map_ext _ fst) by (intros g; apply tuples_merged_key).
    rewrite map_fst_group_by. apply NoDup_distinct, key3_eqb_eq.
Qed.

Lemma select_tuples_merged where_ tbl :
  (forall r r', tuples_key r = tuples_key r' -> where_ r = where_ r') ->
  forall t, In t (select_tuples where_ tbl) ->
    let g := filter (fun r => key3_eqb (tuples_key r)
                                (tr_Query t, tr_Type t, tr_Answer t)) tbl in
    g <> [] /\
    tr_TTL t = 0 /\
    is_min (tr_First t) (map tu_first g) /\
    is_max (tr_Last t) (map tu_last g) /\
    tr_Count t = total (map tu_count g) mod UInt64_modulus.
Proof.
  intros Hkey t Ht. unfold select_tuples in Ht.
  rewrite In_order_by, in_map_iff in Ht. destruct Ht as (g & <- & Hg).
  destruct (group_of_where _ _ key3_eqb_eq _ Hkey _ _ Hg) as [Hrows Hne].
  rewrite tuples_merged_key. cbv zeta. rewrite <- Hrows.
  destruct g as [[[q ty] a] rs]; simpl in *.
  split; [assumption|]. split; [reflexivity|].
  split; [apply agg_min_spec, map_nonempty, Hne|].
  split; [apply agg_max_spec, map_nonempty, Hne | apply agg_sum_spec].
Qed.

Lemma stored_tuple_key_reverseQuery l :
  map stored_tuple_key (reverseQuery l)
  = map (fun t => (tr_Query t, tr_Type t, tr_Answer t)) l.
Proof.
  unfold reverseQuery. rewrite map_map. apply map_ext.
  intros t. unfold stored_tuple_key; simpl. rewrite Reverse_involutive. reflexivity.
Qed.

Lemma reverseQuery_merged where_ tbl :
  (forall r r', tuples_key r = tuples_key r' -> where_ r = where_ r') ->
  merged_tuple_lookup tbl (reverseQuery (select_tuples where_ tbl)).
Proof.
  intros Hkey. split.
  - rewrite stored_tuple_key_reverseQuery. apply select_tuples_NoDup.
  - intros t' Ht'. apply in_map_iff in Ht'. destruct Ht' as (t & <- & Ht).
    unfold stored_tuple_key; simpl. rewrite Reverse_involutive.
    apply (select_tuples_merged _ _ Hkey t Ht).
Qed.

(** X6: [FindTuples] and [LikeTuples] merge what the table holds.  They
    return one row per key (query, type, answer), and its first, last
    and count are the minimum, the maximum and the sum in [UInt64] over
    every row stored for that key; the ttl is never selected and comes
    back zero. *)
Theorem tuple_lookups_merge_fragments :
  forall q w tr,
    snd (FindTuples q w) = Return (tr, None) \/
    snd (LikeTuples q w) = Return (tr, None) ->
    merged_tuple_lookup (tuples (db w)) tr.
Proof.
  intros q w tr H.
  destruct H as [H | H]; revert H; run_lookup; simpl;
    (destruct (call_error (hd quiet (net w))); [discriminate|]);
    intros [= <-]; apply reverseQuery_merged;
    intros r r' Hk; injection Hk as Hq _ Ha; rewrite Hq, Ha; reflexivity.
Qed.

Lemma tuple_lookups_merge_fragments_witness :
  merged_tuple_lookup (tuples (db example_world))
    [mk_tupleResult "b.a" "A" "1.1.1.1" 0 1 7 10;
     mk_tupleResult "a.b" "A" "1.1.1.1" 0 5 9 2].
Proof.
  apply (tuple_lookups_merge_fragments "1.1.1.1" example_world).
  left. reflexivity.
Defined.

Lemma select_individual_NoDup where_ tbl :
  NoDup (map (fun t => (ir_Which t, ir_Value t)) (select_individual where_ tbl)).
Proof.
  unfold select_individual.
  eapply Permutation_NoDup.
  - apply Permutation_map. symmetry. apply order_by_perm.
  - rewrite map_map.
    rewrite (map_ext _ fst) by (intros g; apply individual_merged_key).
    rewrite map_fst_group_by. apply NoDup_distinct, key2_eqb_eq.
Qed.

Lemma select_individual_merged where_ tbl :
  (forall r r', individual_key r = individual_key r' -> where_ r = where_ r') ->
  forall t, In t (select_individual where_ tbl) ->
    let g := filter (fun r => key2_eqb (individual_key r) (ir_Which t, ir_Value t))
               tbl in
    g <> [] /\
    is_min (ir_First t) (map in_first g) /\
    is_max (ir_Last t) (map in_last g) /\
    ir_Count t = total (map in_count g) mod UInt64_modulus.
Proof.
  intros Hkey t Ht. unfold select_individual in Ht.
  rewrite In_order_by, in_map_iff in Ht. destruct Ht as (g & <- & Hg).
  destruct (group_of_where _ _ key2_eqb_eq _ Hkey _ _ Hg) as [Hrows Hne].
  rewrite individual_merged_key. cbv zeta. rewrite <- Hrows.
  destruct g as [[wh v] rs]; simpl in *.
  split; [assumption|].
  split; [apply agg_min_spec, map_nonempty, Hne|].
  split; [apply agg_max_spec, map_nonempty, Hne | apply agg_sum_spec].
Qed.

Lemma stored_individual_key_reverseValue l :
  map stored_individual_key (reverseValue l)
  = map (fun t => (ir_Which t, ir_Value t)) l.
Proof.
  unfold reverseValue. rewrite map_map. apply map_ext.
  intros t. unfold stored_individual_key.
  rewrite stored_value_reverseValue. reflexivity.
Qed.

Lemma reverseValue_merged where_ tbl :
  (forall r r', individual_key r = individual_key r' -> where_ r = where_ r') ->
  merged_individual_lookup tbl (reverseValue (select_individual where_ tbl)).
Proof.
  intros Hkey. split.
  - rewrite stored_individual_key_reverseValue. apply select_individual_NoDup.
  - intros t' Ht'. apply in_map_iff in Ht'. destruct Ht' as (t & <- & Ht).
    unfold stored_individual_key. rewrite stored_value_reverseValue.
    apply (select_individual_merged _ _ Hkey t Ht).
Qed.

(** X7: [FindIndividual] and [LikeIndividual] merge what the table
    holds.  They return one row per key (which, value), and its first,
    last and count are the minimum, the maximum and the sum in [UInt64]
    over every row stored for that key. *)
Theorem individual_lookups_merge_fragments :
  forall q w tr,
    snd (FindIndividual q w) = Return (tr, None) \/
    snd (LikeIndividual q w) = Return (tr, None) ->
    merged_individual_lookup (individual (db w)) tr.
Proof.
  intros q w tr H.
  destruct H as [H | H]; revert H; run_lookup; simpl;
    (destruct (call_error (hd quiet (net w))); [discriminate|]);
    intros [= <-]; apply reverseValue_merged;
    intros r r' Hk; injection Hk as Hwh Hv; rewrite Hwh, Hv; reflexivity.
Qed.

Lemma individual_lookups_merge_fragments_witness :
  merged_individual_lookup (individual (db example_world))
    [mk_individualResult Q "example.com" 4 5 6].
Proof.
  apply (individual_lookups_merge_fragments "example.com" example_world).
  left. reflexivity.
Defined.

Lemma Reverse_injective a b : Reverse a = Reverse b -> a = b.
Proof.
  intros H. rewrite <- (Reverse_involutive a), <- (Reverse_involutive b).
  f_equal; assumption.
Qed.

(** X8: an exact lookup returns rows about its input only.  Every row
    [FindTuples] returns has the input as its query name or as its
    answer, and every row [FindIndividual] returns has the input as its
    value, whether it was seen as a query or as an answer. *)
Theorem exact_lookups_mention_input :
  forall (q : string) (w : world),
    Forall (fun t => tr_Query t = q \/ tr_Answer t = q)
      (returned (snd (FindTuples q w))) /\
    Forall (fun t => ir_Value t = q) (returned (snd (FindIndividual q w))).
Proof.
  intros q w. split; run_lookup; simpl;
    (destruct (call_error (hd quiet (net w))); simpl; [constructor|]);
    apply Forall_forall; intros t Ht.
  - destruct (proj1 (reverseQuery_select_tuples _ _) t Ht)
      as (r & _ & Hr & Hq & _ & Ha).
    apply orb_true_iff in Hr. rewrite !String.eqb_eq in Hr.
    destruct Hr as [Hr | Hr].
    + left. apply Reverse_injective. congruence.
    + right. congruence.
  - destruct (proj1 (reverseValue_select_individual _ _) t Ht)
      as (r & _ & Hr & Hwh & Hv).
    apply orb_true_iff in Hr.
    rewrite !andb_true_iff, !which_eqb_eq, !String.eqb_eq in Hr.
    unfold stored_value in Hv.
    destruct Hr as [[Ha Hr] | [Hq Hr]]; rewrite <- Hwh in Hv.
    + rewrite Ha in Hv. congruence.
    + rewrite Hq in Hv. apply Reverse_injective. congruence.
Qed.

(** ** Lookups by prefix and suffix *)

Lemma list_ascii_of_string_app a b :
  list_ascii_of_string (a ++ b)%string
  = list_ascii_of_string a ++ list_ascii_of_string b.
Proof. induction a as [|c a IH]; simpl; [reflexivity | rewrite IH; reflexivity]. Qed.

Lemma string_of_list_ascii_app l1 l2 :
  string_of_list_ascii (l1 ++ l2)
  = (string_of_list_ascii l1 ++ string_of_list_ascii l2)%string.
Proof. induction l1 as [|c l1 IH]; simpl; [reflexivity | rewrite IH; reflexivity]. Qed.

Lemma Reverse_app a b : Reverse (a ++ b)%string = (Reverse b ++ Reverse a)%string.
Proof.
  unfold Reverse.
  rewrite list_ascii_of_string_app, rev_app_distr. apply string_of_list_ascii_app.
Qed.

Lemma plain_Reverse q : plain (Reverse q) = plain q.
Proof.
  unfold plain, Reverse. rewrite list_ascii_of_string_of_list_ascii.
  set (f := fun c => negb (Ascii.eqb c "%" || Ascii.eqb c "_" || Ascii.eqb c "\")).
  destruct (forallb f (list_ascii_of_string q)) eqn:E.
  - apply forallb_forall. intros c Hc. apply in_rev in Hc.
    revert c Hc. apply forallb_forall. exact E.
  - destruct (forallb f (rev (list_ascii_of_string q))) eqn:E'; [| reflexivity].
    rewrite <- E. symmetry. apply forallb_forall. intros c Hc.
    apply in_rev in Hc. revert c Hc. apply forallb_forall. exact E'.
Qed.

Lemma like_chars_any s : like_chars ["%"%char] s = true.
Proof.
  induction s as [|d s IH]; [reflexivity|].
  simpl in *. exact IH.
Qed.

Lemma like_chars_plain p : forall s,
  forallb (fun c => negb (Ascii.eqb c "%" || Ascii.eqb c "_" || Ascii.eqb c "\")) p
  = true ->
  (like_chars (p ++ ["%"%char]) s = true <-> exists rest, s = p ++ rest).
Proof.
  induction p as [|c p IH]; intros s Hp.
  - split; [intros _; exists s; reflexivity | intros _; apply like_chars_any].
  - simpl in Hp. apply andb_true_iff in Hp. destruct Hp as [Hc Hp].
    apply negb_true_iff in Hc. apply orb_false_iff in Hc. destruct Hc as [Hc H3].
    apply orb_false_iff in Hc. destruct Hc as [H1 H2].
    change ((c :: p) ++ ["%"%char]) with (c :: (p ++ ["%"%char])).
    cbn [like_chars]. rewrite H1, H2, H3.
    destruct s as [|d s].
    + split; [discriminate | intros (rest & Hr); discriminate Hr].
    + rewrite andb_true_iff, Ascii.eqb_eq, (IH s Hp). split.
      * intros [-> (rest & ->)]. exists rest. reflexivity.
      * intros (rest & Hr). injection Hr as -> ->. split; [reflexivity|].
        exists rest. reflexivity.
Qed.

Lemma like_plain_prefix s p :
  plain p = true -> (like s (p ++ "%")%string = true <-> starts_with s p).
Proof.
  intros Hp. unfold like, starts_with.
  rewrite list_ascii_of_string_app. change (list_ascii_of_string "%") with ["%"%char].
  rewrite (like_chars_plain _ _ Hp). split.
  - intros (rest & Hr). exists (string_of_list_ascii rest).
    rewrite <- (string_of_list_ascii_of_string s), Hr, string_of_list_ascii_app.
    rewrite string_of_list_ascii_of_string. reflexivity.
  - intros (rest & ->). exists (list_ascii_of_string rest).
    apply list_ascii_of_string_app.
Qed.

Lemma starts_with_Reverse s q :
  starts_with s (Reverse q) <-> ends_with (Reverse s) q.
Proof.
  unfold starts_with, ends_with. split.
  - intros (rest & ->). exists (Reverse rest).
    rewrite Reverse_app, Reverse_involutive. reflexivity.
  - intros (front & H). exists (Reverse front).
    rewrite <- (Reverse_involutive s), H, Reverse_app. reflexivity.
Qed.

(** X9: the prefix lookups find names by suffix.  For an input without
    the characters %, _ and backslash, [LikeTuples] answers for exactly
    the stored keys whose query name ends with the input or whose answer
    starts with it, and [LikeIndividual] for the Query rows whose name
    ends with the input and the Answer rows whose value starts with it.
    The match is by characters, not by labels of the name. *)
Theorem like_lookups_find_suffixes :
  forall (q : string) (w : world),
    plain q = true ->
    call_error (hd quiet (net w)) = None ->
    (exists tr,
        snd (LikeTuples q w) = Return (tr, None) /\
        tuple_lookup_of
          (fun r => ends_with (Reverse (tu_query r)) q \/ starts_with (tu_answer r) q)
          (tuples (db w)) tr /\
        Forall (fun t => ends_with (tr_Query t) q \/ starts_with (tr_Answer t) q) tr) /\
    (exists tr,
        snd (LikeIndividual q w) = Return (tr, None) /\
        individual_lookup_of
          (fun r => (in_which r = A /\ starts_with (in_value r) q) \/
                    (in_which r = Q /\ ends_with (Reverse (in_value r)) q))
          (individual (db w)) tr /\
        Forall (fun t => match ir_Which t with
                         | Q => ends_with (ir_Value t) q
                         | A => starts_with (ir_Value t) q
                         end) tr).
Proof.
  intros q w Hq Hc.
  pose proof (plain_Reverse q) as Hrq. rewrite Hq in Hrq.
  split.
  - eexists. split; [run_lookup; rewrite Hc; reflexivity|].
    assert (L : tuple_lookup_of
                  (fun r => ends_with (Reverse (tu_query r)) q \/
                            starts_with (tu_answer r) q)
                  (tuples (db w))
                  (reverseQuery
                     (select_tuples
                        (fun r => like (tu_query r) (Reverse q ++ "%")%string
                                  || like (tu_answer r) (q ++ "%")%string)
                        (tuples (db w))))).
    { eapply tuple_lookup_of_iff; [| apply reverseQuery_select_tuples].
      intros r; simpl.
      rewrite orb_true_iff, (like_plain_prefix _ _ Hrq), (like_plain_prefix _ _ Hq).
      rewrite starts_with_Reverse. reflexivity. }
    split; [exact L|].
    apply Forall_forall. intros t Ht.
    destruct (proj1 L t Ht) as (r & _ & Hr & Hk & _ & Ha).
    rewrite Hk, Reverse_involutive, Ha in Hr. exact Hr.
  - eexists. split; [run_lookup; rewrite Hc; reflexivity|].
    assert (L : individual_lookup_of
                  (fun r => (in_which r = A /\ starts_with (in_value r) q) \/
                            (in_which r = Q /\ ends_with (Reverse (in_value r)) q))
                  (individual (db w))
                  (reverseValue
                     (select_individual
                        (fun r => (which_eqb (in_which r) A
                                   && like (in_value r) (q ++ "%")%string)
                                  || (which_eqb (in_which r) Q
                                      && like (in_value r) (Reverse q ++ "%")%string))
                        (individual (db w))))).
    { eapply individual_lookup_of_iff; [| apply reverseValue_select_individual].
      intros r; simpl.
      rewrite orb_true_iff, !andb_true_iff, !which_eqb_eq.
      rewrite (like_plain_prefix _ _ Hrq), (like_plain_prefix _ _ Hq).
      rewrite starts_with_Reverse. reflexivity. }
    split; [exact L|].
    apply Forall_forall. intros t Ht.
    destruct (proj1 L t Ht) as (r & _ & Hr & Hwh & Hv).
    unfold stored_value in Hv. rewrite <- Hwh.
    destruct Hr as [[Ha Hr] | [Hqq Hr]].
    + rewrite Ha. rewrite <- Hwh, Ha in Hv. rewrite Hv in Hr. exact Hr.
    + rewrite Hqq. rewrite <- Hwh, Hqq in Hv.
      rewrite Hv, Reverse_involutive in Hr. exact Hr.
Qed.

Lemma like_lookups_find_suffixes_witness :
  (exists tr,
      snd (LikeTuples "le.com" example_world) = Return (tr, None) /\
      tuple_lookup_of
        (fun r => ends_with (Reverse (tu_query r)) "le.com" \/
                  starts_with (tu_answer r) "le.com")
        (tuples (db example_world)) tr /\
      Forall (fun t => ends_with (tr_Query t) "le.com" \/
                       starts_with (tr_Answer t) "le.com") tr) /\
  (exists tr,
      snd (LikeIndividual "le.com" example_world) = Return (tr, None) /\
      individual_lookup_of
        (fun r => (in_which r = A /\ starts_with (in_value r) "le.com") \/
                  (in_which r = Q /\ ends_with (Reverse (in_value r)) "le.com"))
        (individual (db example_world)) tr /\
      Forall (fun t => match ir_Which t with
                       | Q => ends_with (ir_Value t) "le.com"
                       | A => starts_with (ir_Value t) "le.com"
                       end) tr).
Proof.
  apply (like_lookups_find_suffixes "le.com" example_world); reflexivity.
Defined.

(** X10: the prefix lookups do not escape their input.  An underscore
    at the head of the input stands for any character: looked up by
    "_" followed by a plain string, [LikeIndividual] returns every
    Answer value, and [LikeTuples] every answer, that has that string
    after its first character, whatever that character is. *)
Theorem like_lookups_read_wildcards :
  forall (q : string) (c : ascii) (s : string) (w : world),
    plain q = true ->
    call_error (hd quiet (net w)) = None ->
    starts_with s q ->
    (forall r, In r (individual (db w)) ->
       in_which r = A -> in_value r = String c s ->
       exists t, In t (returned (snd (LikeIndividual (String "_" q) w))) /\
                 ir_Which t = A /\ ir_Value t = String c s) /\
    (forall r, In r (tuples (db w)) ->
       tu_answer r = String c s ->
       exists t, In t (returned (snd (LikeTuples (String "_" q) w))) /\
                 tr_Answer t = String c s).
Proof.
  intros q c s w Hq Hc Hs.
  assert (Hlike : like (String c s) (String "_" q ++ "%")%string = true).
  { change (like (String c s) (String "_" q ++ "%")%string)
      with (like s (q ++ "%")%string).
    apply like_plain_prefix; assumption. }
  split.
  - intros r Hin Hwh Hv. run_lookup. rewrite Hc. simpl.
    destruct (proj2 (reverseValue_select_individual
                       (fun r => (which_eqb (in_which r) A
                                  && like (in_value r) (String "_" q ++ "%")%string)
                                 || (which_eqb (in_which r) Q
                                     && like (in_value r)
                                          (Reverse (String "_" q) ++ "%")%string))
                       (individual (db w))) r Hin)
      as (t & Ht & Htw & Htv).
    { cbv beta. rewrite Hwh, Hv, Hlike. reflexivity. }
    exists t. split; [exact Ht|].
    unfold stored_value in Htv. rewrite Htw, Hwh in Htv.
    split; congruence.
  - intros r Hin Ha. run_lookup. rewrite Hc. simpl.
    destruct (proj2 (reverseQuery_select_tuples
                       (fun r => like (tu_query r) (Reverse (String "_" q) ++ "%")%string
                                 || like (tu_answer r) (String "_" q ++ "%")%string)
                       (tuples (db w))) r Hin)
      as (t & Ht & _ & _ & Hta).
    { cbv beta. rewrite Ha, Hlike. apply orb_true_r. }
    exists t. split; [exact Ht | congruence].
Qed.

Lemma like_lookups_read_wildcards_witness :
  (forall r, In r (individual (db example_world)) ->
     in_which r = A -> in_value r = String "1" ".2.3.4" ->
     exists t, In t (returned (snd (LikeIndividual (String "_" ".2.") example_world))) /\
               ir_Which t = A /\ ir_Value t = String "1" ".2.3.4") /\
  (forall r, In r (tuples (db example_world)) ->
     tu_answer r = String "1" ".2.3.4" ->
     exists t, In t (returned (snd (LikeTuples (String "_" ".2.") example_world))) /\
               tr_Answer t = String "1" ".2.3.4").
Proof.
  apply (like_lookups_read_wildcards ".2." "1" ".2.3.4" example_world);
    [reflexivity | reflexivity | exists "3.4"; reflexivity].
Defined.

(** ** The order of merges and merging twice *)









Section GroupByPerm.
Context {R K T : Type}.
Variable key : R -> K.
Variable keqb : K -> K -> bool.
Hypothesis keqb_eq : forall a b, keqb a b = true <-> a = b.
Variable merge : K * list R -> T.
Hypothesis merge_perm :
  forall k rs rs', Permutation rs rs' -> merge (k, rs) = merge (k, rs').


End GroupByPerm.














(** ** The ledger is written *)

Lemma IsLogIndexed_answer f d c n s :
  call_error (hd quiet n) = None ->
  snd (IsLogIndexed f (mk_world d c n s))
  = Return (match filter (fun r => (fn_filename r =? f)%string) (filenames d) with
            | [] => false
            | _ :: _ => true
            end, None).
Proof.
  intros Hc.
  unfold IsLogIndexed, conn_QueryRow_Scan, bind, net_call, get_db, ret; simpl.
  rewrite Hc. simpl.
  destruct (filter (fun r => (fn_filename r =? f)%string) (filenames d)); reflexivity.
Qed.

Lemma SetLogIndexed_outcome f ar ur w w' o :
  SetLogIndexed f ar ur w = (w', o) ->
  tuples (db w') = tuples (db w) /\
  individual (db w') = individual (db w) /\
  match o with
  | Return None =>
      filenames (db w')
      = filenames (db w)
        ++ [mk_filenames_row f
              (ar_Duration ar) (uint64 (ar_TotalRecords ar))
              (uint64 (ar_SkippedRecords ar))
              (Z.of_nat (List.length (ar_Tuples ar)))
              (Z.of_nat (List.length (ar_Individual ar)))
              (ur_Duration ur) (uint64 (ur_Inserted ur)) (uint64 (ur_Updated ur))]
  | Return (Some e) =>
      filenames (db w') = filenames (db w) /\
      call_error (hd quiet (net w)) = None /\
      (call_error (hd quiet (tl (net w))) = Some e \/
       call_error (hd quiet (tl (tl (net w)))) = Some e)
  | Panic msg =>
      filenames (db w') = filenames (db w) /\ msg = nil_dereference /\
      call_error (hd quiet (net w)) <> None
  end.
Proof.
  unfold SetLogIndexed, conn_Begin, tx_Exec, tx_Commit, bind, ret, panic,
    net_call, get_db, put_db.
  cbn [db clock net wire fst snd].
  intros H.
  repeat split_match H.
  all: injection H as <- <-; cbn [db tuples individual filenames tx_rows app].
  all: repeat split; try reflexivity; try discriminate; auto.
Qed.

(** X13: a file marked with [SetLogIndexed] is found by [IsLogIndexed].
    When [SetLogIndexed] returns nil, one row has been appended to the
    ledger, with the number of tuple and individual entries of the
    batch, whether or not the file was listed before; [IsLogIndexed]
    then answers true for that file and what it answered before for
    every other file; the tuple and individual tables are untouched. *)
Theorem SetLogIndexed_then_IsLogIndexed :
  forall f ar ur w w',
    SetLogIndexed f ar ur w = (w', Return None) ->
    (forall c n s,
        call_error (hd quiet n) = None ->
        snd (IsLogIndexed f (mk_world (db w') c n s)) = Return (true, None)) /\
    (forall g c n s,
        g <> f ->
        snd (IsLogIndexed g (mk_world (db w') c n s))
        = snd (IsLogIndexed g (mk_world (db w) c n s))) /\
    (exists row,
        filenames (db w') = filenames (db w) ++ [row] /\
        fn_filename row = f /\
        fn_tuples row = Z.of_nat (List.length (ar_Tuples ar)) /\
        fn_individual row = Z.of_nat (List.length (ar_Individual ar))) /\
    tuples (db w') = tuples (db w) /\
    individual (db w') = individual (db w).
Proof.
  intros f ar ur w w' H.
  destruct (SetLogIndexed_outcome _ _ _ _ _ _ H) as (Ht & Hi & Hf).
  split; [| split; [| split; [| split; assumption]]].
  - intros c n s Hc. rewrite (IsLogIndexed_answer _ _ _ _ _ Hc), Hf, filter_app.
    simpl. rewrite String.eqb_refl.
    destruct (filter (fun r => (fn_filename r =? f)%string) (filenames (db w)));
      reflexivity.
  - intros g c n s Hg.
    unfold IsLogIndexed, conn_QueryRow_Scan, bind, net_call, get_db, ret; simpl.
    destruct (call_error (hd quiet n)) as [e|]; simpl; [destruct e; reflexivity|].
    rewrite Hf, filter_app. simpl.
    assert (E : (f =? g)%string = false) by (apply String.eqb_neq; congruence).
    rewrite E, app_nil_r.
    destruct (filter (fun r => (fn_filename r =? g)%string) (filenames (db w)));
      reflexivity.
  - eexists. split; [exact Hf|]. repeat split.
Qed.

Lemma SetLogIndexed_then_IsLogIndexed_witness :
  snd (IsLogIndexed "dns.01.log"
         (mk_world (db (fst (SetLogIndexed "dns.01.log" example_batch
                               zero_UpdateResult example_world)))
            0 [] []))
  = Return (true, None).
Proof.
  apply (SetLogIndexed_then_IsLogIndexed "dns.01.log" example_batch zero_UpdateResult
           example_world
           (fst (SetLogIndexed "dns.01.log" example_batch zero_UpdateResult
                   example_world)));
    reflexivity.
Defined.

(** X14: [SetLogIndexed] drops the error of [Begin].  When [Begin]
    fails there is no transaction, the insert dereferences nil and
    [SetLogIndexed] panics instead of returning the error; this is the
    only way it panics, and the ledger is then as before. *)
Theorem SetLogIndexed_panics_when_Begin_fails :
  forall f ar ur w,
    (forall e,
        call_error (hd quiet (net w)) = Some e ->
        snd (SetLogIndexed f ar ur w) = Panic nil_dereference /\
        db (fst (SetLogIndexed f ar ur w)) = db w) /\
    (forall w' msg,
        SetLogIndexed f ar ur w = (w', Panic msg) ->
        msg = nil_dereference /\
        call_error (hd quiet (net w)) <> None /\
        filenames (db w') = filenames (db w)).
Proof.
  intros f ar ur w. split.
  - intros e He.
    unfold SetLogIndexed, conn_Begin, bind, ret, panic, net_call; simpl.
    rewrite He. split; reflexivity.
  - intros w' msg H.
    destruct (SetLogIndexed_outcome _ _ _ _ _ _ H) as (_ & _ & Hf & Hm & Hc).
    auto.
Qed.

Lemma SetLogIndexed_panics_when_Begin_fails_witness :
  snd (SetLogIndexed "dns.01.log" example_batch zero_UpdateResult
         (mk_world example_db 100 [refused] []))
  = Panic nil_dereference /\
  db (fst (SetLogIndexed "dns.01.log" example_batch zero_UpdateResult
             (mk_world example_db 100 [refused] [])))
  = db (mk_world example_db 100 [refused] []).
Proof.
  destruct (SetLogIndexed_panics_when_Begin_fails "dns.01.log" example_batch
              zero_UpdateResult (mk_world example_db 100 [refused] [])) as (H & _).
  apply (H (Foreign "dial tcp: connection refused")). reflexivity.
Defined.

(** ** The schema is set up and cleared *)

Lemma Exec_range_outcome (Exec_text : string -> M (option error)) stmts :
  forall w w' o,
    Exec_range Exec_text stmts w = (w', o) ->
    (o = Return None /\ all_succeed Exec_text stmts w w') \/
    (o <> Return None /\ stopped_at Exec_text stmts w w' o).
Proof.
  induction stmts as [|stmt rest IH]; intros w w' o H.
  - injection H as <- <-. left. split; [reflexivity | constructor].
  - simpl in H. unfold bind in H.
    destruct (Exec_text stmt w) as [w1 [[e|] | msg]] eqn:E.
    + injection H as <- <-. right. split; [discriminate|].
      exists [], stmt, rest, w. split; [reflexivity|]. split; [constructor | exact E].
    + destruct (IH _ _ _ H) as [[-> Hall] | [Hne (done & s & rest' & w2 & -> & Hall & Hs)]].
      * left. split; [reflexivity|]. econstructor; eassumption.
      * right. split; [assumption|].
        exists (stmt :: done), s, rest', w2. split; [reflexivity|].
        split; [econstructor; eassumption | exact Hs].
    + injection H as <- <-. right. split; [discriminate|].
      exists [], stmt, rest, w. split; [reflexivity|]. split; [constructor | exact E].
Qed.

(** X15: [Init] and [Clear] stop at the first statement that fails.
    Whatever [Exec] does with a statement, a run that does not return
    nil returns what one statement returned, unwrapped: the statements
    before it had succeeded and those after it were never sent.  A run
    returns nil only when every statement succeeded, in the order
    written: [Clear] empties the ledger first and the tuple table
    last. *)
Theorem Init_and_Clear_stop_at_first_error :
  forall (Exec_text : string -> M (option error)) (w w' : world)
         (o : outcome (option error)),
    (Init Exec_text w = (w', o) ->
       (o = Return None /\ all_succeed Exec_text chschema w w') \/
       (o <> Return None /\ stopped_at Exec_text chschema w w' o)) /\
    (Clear Exec_text w = (w', o) ->
       (o = Return None /\
        all_succeed Exec_text
          ["DELETE FROM filenames"; "DELETE FROM individual"; "DELETE FROM tuples"]
          w w') \/
       (o <> Return None /\
        stopped_at Exec_text
          ["DELETE FROM filenames"; "DELETE FROM individual"; "DELETE FROM tuples"]
          w w' o)).
Proof.
  intros Exec_text w w' o. split; apply Exec_range_outcome.
Qed.

Lemma Init_and_Clear_stop_at_first_error_witness :
  let Exec_text := fun _ : string => Exec (DROP_TABLE tuples_temp) in
  let w := mk_world (mk_database [] [] [] (Some []) None) 0 [] [] in
  let w' := fst (Clear Exec_text w) in
  let o := Return (Some (no_such_table "tuples_temp")) in
  (o = Return None /\
   all_succeed Exec_text
     ["DELETE FROM filenames"; "DELETE FROM individual"; "DELETE FROM tuples"]
     w w') \/
  (o <> Return None /\
   stopped_at Exec_text
     ["DELETE FROM filenames"; "DELETE FROM individual"; "DELETE FROM tuples"]
     w w' o).
Proof.
  intros Exec_text w w' o.
  apply (Init_and_Clear_stop_at_first_error Exec_text w w' o).
  reflexivity.
Defined.

(** ** A batch is merged and looked up *)



